(** * cistern/server.go: the range-query handler and the server life cycle

    A shallow embedding of [NewServer], [DumpBinlog], [StartCollect],
    [StartPublish], [StartMetrics] and [Close] of package [cistern],
    and the properties of the range query and of the shutdown sequence. *)

From Stdlib Require Import ZArith List Bool Lia String Ascii.
From Stdlib.Strings Require Import Byte.
From Stdlib Require Import DecimalString Sorted.
From Stdlib Require Import DecimalPos DecimalZ.
Import ListNotations.

Local Open Scope Z_scope.

(** ** Byte strings *)

Definition bytes := list byte.

Definition byte_val (b : byte) : Z := Z.of_N (Byte.to_N b).

(** [bytes.Compare]: lexicographic order, a proper prefix comes first. *)
Fixpoint bytes_compare (a b : bytes) : comparison :=
  match a, b with
  | [], [] => Eq
  | [], _ :: _ => Lt
  | _ :: _, [] => Gt
  | x :: a', y :: b' =>
      match Z.compare (byte_val x) (byte_val y) with
      | Eq => bytes_compare a' b'
      | c => c
      end
  end.

Definition bytes_ltb (a b : bytes) : bool :=
  match bytes_compare a b with Lt => true | _ => false end.

Definition bytes_leb (a b : bytes) : bool :=
  match bytes_compare a b with Gt => false | _ => true end.

Definition bytes_eqb (a b : bytes) : bool :=
  match bytes_compare a b with Eq => true | _ => false end.

(** [[]byte(s)] *)
Definition bytes_of_string (s : string) : bytes := list_byte_of_string s.

(** ** Machine integers *)

Definition int32_wrap (z : Z) : Z := (z + 2 ^ 31) mod 2 ^ 32 - 2 ^ 31.
Definition int64_wrap (z : Z) : Z := (z + 2 ^ 63) mod 2 ^ 64 - 2 ^ 63.
Definition in_int32 (z : Z) : Prop := - 2 ^ 31 <= z < 2 ^ 31.
Definition in_int64 (z : Z) : Prop := - 2 ^ 63 <= z < 2 ^ 63.

(** ** Errors

    Go [error] values as far as the handler looks at them: a message,
    and the wrapper that [errors.Trace] and [errors.Annotatef] of
    juju/errors put around an error.  A nil error is [None]. *)

Inductive error : Type :=
| ErrNew (msg : string)
| ErrTrace (e : error)
| ErrAnnotate (msg : string) (e : error).

(** [err.Error()] *)
Fixpoint Error (e : error) : string :=
  match e with
  | ErrNew msg => msg
  | ErrTrace e' => Error e'
  | ErrAnnotate msg e' => msg ++ ": " ++ Error e'
  end.

(** [errors.Cause(err)] *)
Fixpoint Cause (e : error) : error :=
  match e with
  | ErrNew msg => ErrNew msg
  | ErrTrace e' => Cause e'
  | ErrAnnotate _ e' => Cause e'
  end.

(** [errors.Trace(err)]: nil stays nil. *)
Definition Trace (err : option error) : option error :=
  match err with
  | None => None
  | Some e => Some (ErrTrace e)
  end.

(** A value or an error, for the calls that return [(v, err)]. *)
Inductive result (A : Type) : Type :=
| Ok (a : A)
| Err (e : error).
Arguments Ok {A} a.
Arguments Err {A} e.

(** ** The store *)

Definition record := (bytes * bytes)%type.
Definition bucket := list record.

(** Modelled from the spec: the Store ([pkg/store] is not among the
    sources), a persistent, namespaced, ordered byte-key store with put,
    scan and delete.  A namespace is a bucket that keeps its records in
    increasing key order. *)
Record Store : Type := mkStore {
  buckets : list (bytes * bucket);
  closed : bool
}.

Fixpoint find_bucket (bs : list (bytes * bucket)) (ns : bytes) : option bucket :=
  match bs with
  | [] => None
  | (n, b) :: bs' => if bytes_eqb n ns then Some b else find_bucket bs' ns
  end.

Fixpoint set_bucket (bs : list (bytes * bucket)) (ns : bytes) (b : bucket)
  : list (bytes * bucket) :=
  match bs with
  | [] => []
  | (n, b0) :: bs' =>
      if bytes_eqb n ns then (n, b) :: bs' else (n, b0) :: set_bucket bs' ns b
  end.

Fixpoint bucket_put (b : bucket) (k v : bytes) : bucket :=
  match b with
  | [] => [(k, v)]
  | (k0, v0) :: b' =>
      match bytes_compare k k0 with
      | Lt => (k, v) :: (k0, v0) :: b'
      | Eq => (k, v) :: b'
      | Gt => (k0, v0) :: bucket_put b' k v
      end
  end.

Fixpoint bucket_delete (b : bucket) (k : bytes) : bucket :=
  match b with
  | [] => []
  | (k0, v0) :: b' =>
      if bytes_eqb k k0 then b' else (k0, v0) :: bucket_delete b' k
  end.

(** The cursor's [Seek]: the records from the first key [>= startKey] on. *)
Fixpoint seek (b : bucket) (startKey : bytes) : bucket :=
  match b with
  | [] => []
  | (k, v) :: b' =>
      if bytes_ltb k startKey then seek b' startKey else (k, v) :: b'
  end.

Definition ErrBucketNotFound : error := ErrNew "bolt: bucket not found".

(** [NewBoltStore(path, namespaces)] on a fresh data file. *)
Definition empty_store (namespaces : list bytes) : Store :=
  mkStore (map (fun ns => (ns, [])) namespaces) false.

(** Modelled from the spec: the Store's put and delete; a namespace the
    store was not opened with is a store failure. *)
Definition store_put (s : Store) (ns k v : bytes) : result Store :=
  match find_bucket (buckets s) ns with
  | None => Err ErrBucketNotFound
  | Some b => Ok (mkStore (set_bucket (buckets s) ns (bucket_put b k v)) (closed s))
  end.

Definition store_delete (s : Store) (ns k : bytes) : result Store :=
  match find_bucket (buckets s) ns with
  | None => Err ErrBucketNotFound
  | Some b => Ok (mkStore (set_bucket (buckets s) ns (bucket_delete b k)) (closed s))
  end.

(** ** The deposit window *)

(** Modelled from the spec: the Window ([cistern/window.go] is not among
    the sources), which holds the safe boundary [lower] and the highest
    seen timestamp [upper]. *)
Record DepositWindow : Type := mkWindow {
  lower : Z;
  upper : Z
}.

(** ** Server state *)

(** The three package-level namespace variables. *)
Record Globals : Type := mkGlobals {
  WindowNamespace : bytes;
  BinlogNamespace : bytes;
  SavePointNamespace : bytes
}.

Record metricClient : Type := mkMetricClient {
  addr : string;
  interval : Z
}.

Inductive grpcServer : Type := GrpcNew | GrpcServing | GrpcStopped.

(** [Server]: [ctx] is the cancellation flag that [cancel] raises, [wg]
    the counter of the wait group.  The collector and the publisher are
    the background tasks of the life-cycle model below. *)
Record Server : Type := mkServer {
  boltdb : Store;
  window : DepositWindow;
  tcpAddr : string;
  gs : grpcServer;
  metrics : option metricClient;
  ctx : bool;
  wg : Z
}.

(** What a call does to its collaborators, in program order. *)
Inductive Event : Type :=
| EvLoadLower
| EvScan (ns startKey : bytes)
| EvVisit (key : bytes)
| EvGracefulStop
| EvCancel
| EvWait
| EvStoreClose.

Record World : Type := mkWorld {
  globals : Globals;
  srv : Server;
  log : list Event
}.

(** ** A state monad over the world *)

Definition M (A : Type) : Type := World -> A * World.

Definition pure {A} (a : A) : M A := fun w => (a, w).

Definition bind {A B} (m : M A) (k : A -> M B) : M B :=
  fun w => let (a, w') := m w in k a w'.

Declare Scope world_scope.
Delimit Scope world_scope with world.
Notation "x <- c ;; k" := (bind c (fun x => k))
  (at level 61, c at next level, right associativity) : world_scope.
Notation "' pat <- c ;; k" := (bind c (fun x => match x with pat => k end))
  (at level 61, pat pattern, c at next level, right associativity) : world_scope.
Notation "c ;; k" := (bind c (fun _ => k))
  (at level 61, right associativity) : world_scope.
Local Open Scope world_scope.

Definition emit (e : Event) : M unit :=
  fun w => (tt, mkWorld (globals w) (srv w) (log w ++ [e])).

Definition get_server : M Server := fun w => (srv w, w).
Definition put_server (s : Server) : M unit :=
  fun w => (tt, mkWorld (globals w) s (log w)).
Definition get_globals : M Globals := fun w => (globals w, w).

(** Modelled from the spec: [s.window.LoadLower()] of the Window, which
    reads [lower]. *)
Definition LoadLower : M Z :=
  emit EvLoadLower ;;
  s <- get_server ;;
  pure (lower (window s)).

(** The scan's loop over the records from the cursor on.  [S] is the state
    that the callback's closure captures and updates. *)
Fixpoint scan_records {S : Type}
  (f : bytes -> bytes -> S -> M (S * (bool * option error)))
  (rs : bucket) (s : S) : M (S * option error) :=
  match rs with
  | [] => pure (s, None)
  | (k, v) :: rs' =>
      emit (EvVisit k) ;;
      '(s', (valid, err)) <- f k v s ;;
      match err with
      | Some e => pure (s', Some e)
      | None => if valid then scan_records f rs' s' else pure (s', None)
      end
  end.

(** Modelled from the spec: [s.boltdb.Scan(namespace, startKey, f)] of
    the Store.  The scan starts at the first key not below [startKey] and
    hands each record, in increasing key order, to the callback, which
    signals continue or stop, or fails; a scan of a namespace the store
    was not opened with is a store failure. *)
Definition Scan {S : Type} (ns startKey : bytes)
  (f : bytes -> bytes -> S -> M (S * (bool * option error)))
  (s : S) : M (S * option error) :=
  emit (EvScan ns startKey) ;;
  sv <- get_server ;;
  match find_bucket (buckets (boltdb sv)) ns with
  | None => pure (s, Some ErrBucketNotFound)
  | Some b => scan_records f (seek b startKey) s
  end.

(** ** The range query *)

Record DumpBinlogReq : Type := mkReq {
  BeginCommitTS : Z;
  Limit : Z
}.

Record DumpBinlogResp : Type := mkResp {
  Payloads : list bytes;
  EndCommitTS : Z;
  Errmsg : string
}.

Section RangeQuery.

(** The key codec of the TiDB library and the payload decoder of
    [cistern], neither among the sources: [codec.EncodeInt(b, v)],
    [codec.DecodeInt(b)] giving the rest and the value, and
    [decodePayload(val)] giving the payload and its age. *)
Variable EncodeInt : bytes -> Z -> bytes.
Variable DecodeInt : bytes -> result (bytes * Z).
Variable decodePayload : bytes -> result (bytes * Z).

(** The closure passed to [Scan].  It touches nothing but its captured
    variables: [ret] and [limit], which it updates and which are the
    state [st], and [start] and [end_], which it reads. *)
Definition dump_callback (start end_ : Z) (key val : bytes)
  (st : DumpBinlogResp * Z) : (DumpBinlogResp * Z) * (bool * option error) :=
  let (ret0, limit) := st in
  if limit <=? 0 then (st, (false, None))
  else
    match DecodeInt key with
    | Err err => (st, (false, Trace (Some err)))
    | Ok (_, cts) =>
        if cts =? start then (st, (true, None))
        else if cts >=? end_ then (st, (false, None))
        else
          match decodePayload val with
          | Err err => (st, (false, Trace (Some err)))
          | Ok (payload, _) =>
              let ret1 := mkResp (Payloads ret0 ++ [payload]) (EndCommitTS ret0) (Errmsg ret0) in
              let ret2 := mkResp (Payloads ret1) cts (Errmsg ret1) in
              ((ret2, int32_wrap (limit - 1)), (true, None))
          end
    end.

(** The first half of [DumpBinlog], up to the return of [Scan]: the
    closure's final [ret] and [limit], and the scan's error. *)
Definition dump_scan (req : DumpBinlogReq)
  : M ((DumpBinlogResp * Z) * option error) :=
  let ret0 := mkResp [] 0 "" in
  let start := BeginCommitTS req in
  let startKey := EncodeInt [] start in
  end_ <- LoadLower ;;
  let limit := Limit req in
  g <- get_globals ;;
  Scan (BinlogNamespace g) startKey
       (fun key val st => pure (dump_callback start end_ key val st))
       (ret0, limit).

Definition DumpBinlog (req : DumpBinlogReq) : M (DumpBinlogResp * option error) :=
  '((ret1, _), err) <- dump_scan req ;;
  let ret2 :=
    match err with
    | Some e => mkResp (Payloads ret1) (EndCommitTS ret1) (Error e)
    | None => ret1
    end in
  pure (ret2, Trace err).

End RangeQuery.

(** ** Construction *)

Record Config : Type := mkConfig {
  ClusterID : Z;
  DataDir : string;
  ListenAddr : string;
  MetricsAddr : string;
  MetricsInterval : Z
}.

(** [fmt.Sprintf(prefix + "%d", n)] *)
Definition Sprintf_d (prefix : string) (n : Z) : string :=
  (prefix ++ NilZero.string_of_int (Z.to_int n))%string.

Section Construction.

(** What [NewServer] calls outside this file. *)
Variable MkdirAll : string -> option error.
Variable Join : string -> string -> string.
Variable NewBoltStore : string -> list bytes -> result Store.
Variable NewDepositWindow : Store -> result DepositWindow.
Variable NewCollector : Config -> Store -> DepositWindow -> option error.

(** [NewServer]: the namespace variables are assigned first, whatever
    fails later.  The result comes with the new value of the globals. *)
Definition NewServer (cfg : Config) (g : Globals) : result Server * Globals :=
  let g1 := mkGlobals (bytes_of_string (Sprintf_d "meta_" (ClusterID cfg)))
                      (BinlogNamespace g) (SavePointNamespace g) in
  let g2 := mkGlobals (WindowNamespace g1)
                      (bytes_of_string (Sprintf_d "binlog_" (ClusterID cfg)))
                      (SavePointNamespace g1) in
  let g3 := mkGlobals (WindowNamespace g2) (BinlogNamespace g2)
                      (bytes_of_string (Sprintf_d "savepoint_" (ClusterID cfg))) in
  match MkdirAll (DataDir cfg) with
  | Some err => (Err err, g3)
  | None =>
      match NewBoltStore (Join (DataDir cfg) "data.bolt")
              [WindowNamespace g3; BinlogNamespace g3; SavePointNamespace g3] with
      | Err err =>
          (Err (ErrAnnotate ("failed to open BoltDB store in dir(" ++ DataDir cfg ++ ")")%string
                            err), g3)
      | Ok s =>
          match NewDepositWindow s with
          | Err err => (Err (ErrTrace err), g3)
          | Ok win =>
              match NewCollector cfg s win with
              | Some err => (Err (ErrTrace err), g3)
              | None =>
                  let metrics :=
                    if negb (String.eqb (MetricsAddr cfg) "") && negb (MetricsInterval cfg =? 0)
                    then Some (mkMetricClient (MetricsAddr cfg) (MetricsInterval cfg))
                    else None in
                  (Ok (mkServer s win (ListenAddr cfg) GrpcNew metrics false 0), g3)
              end
          end
      end
  end.

End Construction.

(** ** Life cycle

    The background goroutines and the goroutine that runs [Close] take
    turns; a turn is one call of the source.  A goroutine that returns
    runs its deferred [wg.Done()]. *)

Inductive taskKind : Type := TCollector | TPublisher | TMetrics.

Record goroutine : Type := mkGoroutine {
  kind : taskKind;
  running : bool
}.

Record System : Type := mkSystem {
  world : World;
  goroutines : list goroutine;
  close_pc : nat
}.

Definition set_wg (s : Server) (n : Z) : Server :=
  mkServer (boltdb s) (window s) (tcpAddr s) (gs s) (metrics s) (ctx s) n.
Definition set_ctx (s : Server) (c : bool) : Server :=
  mkServer (boltdb s) (window s) (tcpAddr s) (gs s) (metrics s) c (wg s).
Definition set_gs (s : Server) (g : grpcServer) : Server :=
  mkServer (boltdb s) (window s) (tcpAddr s) g (metrics s) (ctx s) (wg s).
Definition set_boltdb (s : Server) (b : Store) : Server :=
  mkServer b (window s) (tcpAddr s) (gs s) (metrics s) (ctx s) (wg s).

(** [s.wg.Add(1); go func() { defer s.wg.Done(); task.Start(s.ctx) }()] *)
Definition spawn (k : taskKind) (sys : System) : System :=
  let w := world sys in
  mkSystem (mkWorld (globals w) (set_wg (srv w) (wg (srv w) + 1)) (log w))
           (goroutines sys ++ [mkGoroutine k true])
           (close_pc sys).

Definition StartCollect (sys : System) : System := spawn TCollector sys.

Definition StartPublish (sys : System) : System := spawn TPublisher sys.

Definition StartMetrics (sys : System) : System :=
  match metrics (srv (world sys)) with
  | None => sys
  | Some _ => spawn TMetrics sys
  end.

(** [Start], up to the moment the gRPC server serves or to the error
    returned before: [url_Parse] gives the host of the listening address,
    [net_Listen] opens the listener. *)
Definition Start (url_Parse : string -> result string)
  (net_Listen : string -> option error) (sys : System) : option error * System :=
  let sys1 := StartCollect sys in
  let sys2 := StartPublish sys1 in
  let sys3 := StartMetrics sys2 in
  let w := world sys3 in
  match url_Parse (tcpAddr (srv w)) with
  | Err err =>
      (Some (ErrAnnotate ("invalid listening tcp addr (" ++ tcpAddr (srv w) ++ ")")%string err),
       sys3)
  | Ok host =>
      match net_Listen host with
      | Some err =>
          (Some (ErrAnnotate ("fail to start TCP listener on " ++ host)%string err), sys3)
      | None =>
          (None,
           mkSystem (mkWorld (globals w) (set_gs (srv w) GrpcServing) (log w))
                    (goroutines sys3) (close_pc sys3))
      end
  end.

(** [s.gs.GracefulStop()] *)
Definition GracefulStop : M unit :=
  emit EvGracefulStop ;;
  s <- get_server ;;
  put_server (set_gs s GrpcStopped).

(** [s.cancel()] *)
Definition cancel : M unit :=
  emit EvCancel ;;
  s <- get_server ;;
  put_server (set_ctx s true).

(** [s.wg.Wait()] returns when the counter is zero, and not before. *)
Definition Wait_ready (w : World) : bool := wg (srv w) =? 0.

Definition Wait : M unit := emit EvWait.

(** [s.boltdb.Close()] *)
Definition boltdb_Close : M unit :=
  emit EvStoreClose ;;
  s <- get_server ;;
  put_server (set_boltdb s (mkStore (buckets (boltdb s)) true)).

(** [Close], when nothing else takes a turn and the wait does not block. *)
Definition Close : M unit :=
  GracefulStop ;; cancel ;; Wait ;; boltdb_Close.

(** The four calls of [Close], by program counter.  A turn at [Wait] is
    refused while the counter is not zero. *)
Definition Close_step (pc : nat) (w : World) : option World :=
  match pc with
  | 0%nat => Some (snd (GracefulStop w))
  | 1%nat => Some (snd (cancel w))
  | 2%nat => if Wait_ready w then Some (snd (Wait w)) else None
  | 3%nat => Some (snd (boltdb_Close w))
  | _ => None
  end.

Fixpoint exit_goroutine (gl : list goroutine) (i : nat) : option (list goroutine) :=
  match gl, i with
  | [], _ => None
  | g :: gl', O => if running g then Some (mkGoroutine (kind g) false :: gl') else None
  | g :: gl', S i' =>
      match exit_goroutine gl' i' with
      | Some gl'' => Some (g :: gl'')
      | None => None
      end
  end.

Inductive turn : Type :=
| TurnExit (i : nat)
| TurnClose.

Definition step (t : turn) (sys : System) : option System :=
  match t with
  | TurnExit i =>
      match exit_goroutine (goroutines sys) i with
      | None => None
      | Some gl =>
          let w := world sys in
          Some (mkSystem (mkWorld (globals w) (set_wg (srv w) (wg (srv w) - 1)) (log w))
                         gl (close_pc sys))
      end
  | TurnClose =>
      match Close_step (close_pc sys) (world sys) with
      | None => None
      | Some w => Some (mkSystem w (goroutines sys) (S (close_pc sys)))
      end
  end.

(** A schedule; a refused turn leaves the system as it is. *)
Fixpoint run (ts : list turn) (sys : System) : System :=
  match ts with
  | [] => sys
  | t :: ts' =>
      match step t sys with
      | Some sys' => run ts' sys'
      | None => run ts' sys
      end
  end.

(** A server as [NewServer] returns it, before [Start]. *)
Definition fresh (g : Globals) (s : Server) : System :=
  mkSystem (mkWorld g s []) [] 0.

(** ** An instance of the collaborators

    The comparable integer encoding: eight bytes, big endian, of the value
    with its sign bit flipped, so that byte order follows numeric order;
    decoding needs eight bytes.  The payload format: a binary timestamp
    (version byte 1, fifteen bytes), the payload, and a last byte holding
    the timestamp's length. *)

Module Codec.

Definition signMask : Z := 2 ^ 63.

Definition uint64 (v : Z) : Z := v mod 2 ^ 64.

Definition encodeIntToCmpUint (v : Z) : Z := Z.lxor (uint64 v) signMask.

Definition decodeCmpUintToInt (u : Z) : Z := int64_wrap (Z.lxor u signMask).

Definition byte_of (z : Z) : byte :=
  match Byte.of_N (Z.to_N (z mod 256)) with
  | Some b => b
  | None => x00
  end.

(** [binary.BigEndian.PutUint64] *)
Definition PutUint64 (u : Z) : bytes :=
  map (fun i => byte_of (Z.shiftr u (8 * i))) [7; 6; 5; 4; 3; 2; 1; 0].

Fixpoint be_uint (acc : Z) (b : bytes) : Z :=
  match b with
  | [] => acc
  | x :: b' => be_uint (acc * 256 + byte_val x) b'
  end.

(** [binary.BigEndian.Uint64] of the first eight bytes *)
Definition Uint64 (b : bytes) : Z := be_uint 0 (firstn 8 b).

Definition EncodeInt (b : bytes) (v : Z) : bytes :=
  (b ++ PutUint64 (encodeIntToCmpUint v))%list.

Definition DecodeInt (b : bytes) : result (bytes * Z) :=
  if Z.of_nat (List.length b) <? 8
  then Err (ErrNew "insufficient bytes to decode value")
  else Ok (skipn 8 b, decodeCmpUintToInt (Uint64 b)).

Definition timestamp : bytes :=
  [x01; x00; x00; x00; x0e; xd0; x3c; x5f; x80; x00; x00; x00; x00; xff; xff].

Definition encodePayload (payload : bytes) : bytes :=
  (timestamp ++ payload ++ [byte_of (Z.of_nat (List.length timestamp))])%list.

Definition decodePayload (data : bytes) : result (bytes * Z) :=
  let n := List.length data in
  let n1 := Z.to_nat (byte_val (last data x00)) in
  match firstn n1 data with
  | [] => Err (ErrNew "Time.UnmarshalBinary: no data")
  | v :: _ =>
      if negb (byte_val v =? 1)
      then Err (ErrNew "Time.UnmarshalBinary: unsupported version")
      else if negb (Nat.eqb n1 15)
      then Err (ErrNew "Time.UnmarshalBinary: invalid length")
      else Ok (firstn (n - n1 - 1) (skipn n1 data), 0)
  end.

(** The range query over this instance. *)
Definition DumpBinlog := DumpBinlog EncodeInt DecodeInt decodePayload.
Definition dump_scan := dump_scan EncodeInt DecodeInt decodePayload.

End Codec.

(** ** Sample worlds *)

Definition sample_config (cid : Z) : Config :=
  mkConfig cid "data.cistern" "http://127.0.0.1:8249" "" 0.

Definition sample_NewServer (cfg : Config) (g : Globals) : result Server * Globals :=
  NewServer (fun _ => None)
            (fun d f => (d ++ "/" ++ f)%string)
            (fun _ nss => Ok (empty_store nss))
            (fun _ => Ok (mkWindow 0 0))
            (fun _ _ _ => None)
            cfg g.

(** The server constructed for cluster [cid] and started. *)
Definition sample_system (cid : Z) : System :=
  match sample_NewServer (sample_config cid) (mkGlobals [] [] []) with
  | (Ok s, g) => snd (Start (fun a => Ok a) (fun _ => None) (fresh g s))
  | (Err _, g) => fresh g (mkServer (empty_store []) (mkWindow 0 0) "" GrpcNew None false 0)
  end.

Definition put_entry (ns : bytes) (s : Store) (r : Z * bytes) : Store :=
  match store_put s ns (Codec.EncodeInt [] (fst r)) (snd r) with
  | Ok s' => s'
  | Err _ => s
  end.

(** Its world after the collector stored the records [rs] and moved the
    window's lower bound to [lo]. *)
Definition sample_world (cid : Z) (rs : list (Z * bytes)) (lo : Z) : World :=
  let w := world (sample_system cid) in
  let s := srv w in
  let st := fold_left (put_entry (BinlogNamespace (globals w))) rs (boltdb s) in
  mkWorld (globals w)
          (mkServer st (mkWindow lo lo) (tcpAddr s) (gs s) (metrics s) (ctx s) (wg s))
          (log w).

Definition payload_of (n : Z) : bytes := [Codec.byte_of n; x2a].

(** Entries at commitTS 10 to 15. *)
Definition six_entries : list (Z * bytes) :=
  map (fun n => (n, Codec.encodePayload (payload_of n))) [10; 11; 12; 13; 14; 15].

Definition bad_value : bytes := [x09; x09; x02].

(** The same with an undecodable payload at 12. *)
Definition six_entries_bad12 : list (Z * bytes) :=
  map (fun n => (n, if n =? 12 then bad_value else Codec.encodePayload (payload_of n)))
      [10; 11; 12; 13; 14; 15].

(** ** Notions the properties are stated with *)

(** The bucket that [DumpBinlog] scans, empty when the store has none. *)
Definition binlog_bucket (w : World) : bucket :=
  match find_bucket (buckets (boltdb (srv w))) (BinlogNamespace (globals w)) with
  | Some b => b
  | None => []
  end.

(** Keys in strictly increasing byte order, as a bucket keeps them. *)
Fixpoint bucket_sortedb (b : bucket) : bool :=
  match b with
  | [] => true
  | r1 :: b' =>
      match b' with
      | [] => true
      | r2 :: _ => bytes_ltb (fst r1) (fst r2) && bucket_sortedb b'
      end
  end.

Definition bucket_sorted (b : bucket) : Prop := bucket_sortedb b = true.

(** The first key of a bucket, if any, is above [k]. *)
Definition above (k : bytes) (b : bucket) : Prop :=
  match b with
  | [] => True
  | r :: _ => bytes_ltb k (fst r) = true
  end.

(** Every bucket of the store is in key order. *)
Definition store_sorted (s : Store) : Prop :=
  Forall (fun nb => bucket_sorted (snd nb)) (buckets s).

(** The scan's loop for a callback without effects of its own: the final
    closure state and error, and the keys the callback was called on. *)
Fixpoint scan_pure {S : Type}
  (f : bytes -> bytes -> S -> S * (bool * option error))
  (rs : bucket) (s : S) : (S * option error) * list bytes :=
  match rs with
  | [] => ((s, None), [])
  | (k, v) :: rs' =>
      let '(s', (valid, err)) := f k v s in
      match err with
      | Some e => ((s', Some e), [k])
      | None =>
          if valid
          then let (r, ks) := scan_pure f rs' s' in (r, k :: ks)
          else ((s', None), [k])
      end
  end.

(** The callback answers "continue" on every record of [rs]. *)
Fixpoint run_through {S : Type}
  (f : bytes -> bytes -> S -> S * (bool * option error))
  (rs : bucket) (s : S) : option S :=
  match rs with
  | [] => Some s
  | (k, v) :: rs' =>
      match f k v s with
      | (s', (true, None)) => run_through f rs' s'
      | _ => None
      end
  end.

(** [l1] is [l2] with some elements left out. *)
Inductive subseq {A : Type} : list A -> list A -> Prop :=
| subseq_nil : forall l, subseq [] l
| subseq_skip : forall x l1 l2, subseq l1 l2 -> subseq l1 (x :: l2)
| subseq_take : forall x l1 l2, subseq l1 l2 -> subseq (x :: l1) (x :: l2).

(** An entry that the callback appended: the stored record, the commitTS
    decoded from its key and the payload decoded from its value. *)
Record appended : Type := mkAppended {
  a_key : bytes;
  a_val : bytes;
  a_cts : Z;
  a_payload : bytes
}.

Definition a_record (a : appended) : record := (a_key a, a_val a).

Section Notions.

Variable EncodeInt : bytes -> Z -> bytes.
Variable DecodeInt : bytes -> result (bytes * Z).
Variable decodePayload : bytes -> result (bytes * Z).

Definition decodes (a : appended) : Prop :=
  (exists rest, DecodeInt (a_key a) = Ok (rest, a_cts a)) /\
  (exists age, decodePayload (a_val a) = Ok (a_payload a, age)).

(** Modelled from the spec: the key codec ([util/codec] of the TiDB
    library is not among the sources) is a fixed-width order-preserving
    encoding of commitTS, so that lexicographic byte order equals numeric
    order. *)
Record codec_ok : Prop := mkCodecOk {
  codec_roundtrip :
    forall v, in_int64 v -> DecodeInt (EncodeInt [] v) = Ok ([], v);
  codec_order :
    forall start k rest cts,
      in_int64 start ->
      bytes_ltb k (EncodeInt [] start) = false ->
      DecodeInt k = Ok (rest, cts) ->
      start <= cts
}.

(** What the callback does with a record, by the branch it takes. *)
Inductive callback_case (start end_ : Z) (k v : bytes)
  (r0 : DumpBinlogResp) (limit : Z)
  : (DumpBinlogResp * Z) * (bool * option error) -> Prop :=
| case_limit :
    limit <= 0 ->
    callback_case start end_ k v r0 limit ((r0, limit), (false, None))
| case_bad_key : forall e,
    0 < limit -> DecodeInt k = Err e ->
    callback_case start end_ k v r0 limit ((r0, limit), (false, Some (ErrTrace e)))
| case_skip : forall rest,
    0 < limit -> DecodeInt k = Ok (rest, start) ->
    callback_case start end_ k v r0 limit ((r0, limit), (true, None))
| case_unsafe : forall rest cts,
    0 < limit -> DecodeInt k = Ok (rest, cts) -> cts <> start -> end_ <= cts ->
    callback_case start end_ k v r0 limit ((r0, limit), (false, None))
| case_bad_payload : forall rest cts e,
    0 < limit -> DecodeInt k = Ok (rest, cts) -> cts <> start -> cts < end_ ->
    decodePayload v = Err e ->
    callback_case start end_ k v r0 limit ((r0, limit), (false, Some (ErrTrace e)))
| case_append : forall rest cts payload age,
    0 < limit -> DecodeInt k = Ok (rest, cts) -> cts <> start -> cts < end_ ->
    decodePayload v = Ok (payload, age) ->
    callback_case start end_ k v r0 limit
      ((mkResp (Payloads r0 ++ [payload]) cts (Errmsg r0), int32_wrap (limit - 1)),
       (true, None)).

(** What a scan with the callback leaves behind, started with [r0] and
    [limit] over the records [rs]: [es] are the entries it appended. *)
Definition scan_post (start end_ : Z) (rs : bucket) (r0 : DumpBinlogResp)
  (limit : Z) (out : (DumpBinlogResp * Z) * option error) (es : list appended)
  : Prop :=
  subseq (map a_record es) rs /\
  Forall decodes es /\
  Forall (fun a => a_cts a <> start /\ a_cts a < end_) es /\
  Payloads (fst (fst out)) = (Payloads r0 ++ map a_payload es)%list /\
  EndCommitTS (fst (fst out)) = last (map a_cts es) (EndCommitTS r0) /\
  Errmsg (fst (fst out)) = Errmsg r0 /\
  (limit < 2 ^ 31 ->
   snd (fst out) = limit - Z.of_nat (List.length es) /\
   (0 < limit -> 0 <= snd (fst out)) /\
   (limit <= 0 -> es = [])).

(** The commitTS of [r1] is below that of [r2], as far as both keys decode. *)
Definition cts_ltb (r1 r2 : record) : bool :=
  match DecodeInt (fst r1), DecodeInt (fst r2) with
  | Ok (_, c1), Ok (_, c2) => c1 <? c2
  | _, _ => true
  end.

(** The records come in strictly increasing commitTS order. *)
Fixpoint cts_increasing (rs : bucket) : bool :=
  match rs with
  | [] => true
  | r :: rs' => forallb (cts_ltb r) rs' && cts_increasing rs'
  end.

(** The errors of the decoders carry a message. *)
Definition errors_described : Prop :=
  (forall k e, DecodeInt k = Err e -> Error e <> ""%string) /\
  (forall v e, decodePayload v = Err e -> Error e <> ""%string).

End Notions.

(** No scan of the store shows in a log. *)
Definition no_scan (l : list Event) : bool :=
  forallb (fun e => match e with
                    | EvScan _ _ | EvVisit _ => false
                    | _ => true
                    end) l.

(** The handler's error result is nil: the RPC layer sends the response.
    With a non-nil error result the call fails with that error. *)
Definition request_succeeds (out : DumpBinlogResp * option error) : Prop :=
  snd out = None.

(** The events of [Close], in program order. *)
Definition Close_events : list Event :=
  [EvGracefulStop; EvCancel; EvWait; EvStoreClose].

Fixpoint prefixb (l1 l2 : list Event) : bool :=
  match l1, l2 with
  | [], _ => true
  | e1 :: l1', e2 :: l2' =>
      match e1, e2 with
      | EvGracefulStop, EvGracefulStop
      | EvCancel, EvCancel
      | EvWait, EvWait
      | EvStoreClose, EvStoreClose => prefixb l1' l2'
      | _, _ => false
      end
  | _ :: _, [] => false
  end.

(** The key of commitTS [n] in the instance. *)
Definition key_of (n : Z) : bytes := Codec.EncodeInt [] n.

(** The sample world with the undecodable payload, and the error of
    decoding it. *)
Definition bad12_world : World := sample_world 1 six_entries_bad12 13.

Definition unsupported_version : error :=
  ErrNew "Time.UnmarshalBinary: unsupported version".

(** A server as the sample construction returns it, and a schedule of
    its shutdown. *)
Definition sample_server : Server :=
  match fst (sample_NewServer (sample_config 1) (mkGlobals [] [] [])) with
  | Ok s => s
  | Err _ => mkServer (empty_store []) (mkWindow 0 0) "" GrpcNew None false 0
  end.

Definition sample_schedule : list turn :=
  [TurnClose; TurnClose; TurnClose; TurnExit 1; TurnClose; TurnExit 0; TurnClose; TurnClose].

(** ** Notions of the shutdown *)

(** The goroutines still running. *)
Definition live (gl : list goroutine) : Z :=
  Z.of_nat (List.length (filter running gl)).

(** What holds between the turns: the wait group counts the running
    goroutines, the log holds the calls [Close] has made so far, and the
    flags follow its program counter. *)
Definition Close_inv (sys : System) : Prop :=
  let s := srv (world sys) in
  wg s = live (goroutines sys) /\
  log (world sys) = firstn (close_pc sys) Close_events /\
  (close_pc sys <= 4)%nat /\
  closed (boltdb s) = (4 <=? close_pc sys)%nat /\
  ctx s = (2 <=? close_pc sys)%nat /\
  ((1 <= close_pc sys)%nat -> gs s = GrpcStopped) /\
  ((3 <= close_pc sys)%nat -> wg s = 0).

(** ** Notions of the further properties *)

(** An entry of the binlog bucket: its commitTS, the stored value and the
    payload that the value decodes to. *)
Record entry : Type := mkEntry {
  e_cts : Z;
  e_val : bytes;
  e_payload : bytes
}.

(** [start < commitTS < end_] *)
Definition in_range (start end_ : Z) (e : entry) : bool :=
  (start <? e_cts e) && (e_cts e <? end_).

(** The answer to a range query, in the spec's words: the entries after
    [start] and below the safe end, in commitTS order, at most [limit]. *)
Definition range_spec (start end_ limit : Z) (E : list entry) : list entry :=
  firstn (Z.to_nat limit) (filter (in_range start end_) E).

(** The bucket that holds the entries [E] under their encoded commitTS. *)
Definition stored (EncodeInt : bytes -> Z -> bytes) (E : list entry) : bucket :=
  map (fun e => (EncodeInt [] (e_cts e), e_val e)) E.

(** The entries come in strictly increasing commitTS order, every
    commitTS is an int64, and the values of the entries below [end_]
    decode to their payloads. *)
Definition well_stored (decodePayload : bytes -> result (bytes * Z))
  (end_ : Z) (E : list entry) : Prop :=
  StronglySorted Z.lt (map e_cts E) /\
  Forall (fun e => in_int64 (e_cts e)) E /\
  Forall (fun e => e_cts e < end_ ->
                   exists age, decodePayload (e_val e) = Ok (e_payload e, age)) E.

(** The records whose key decodes to [start]. *)
Definition at_start (DecodeInt : bytes -> result (bytes * Z)) (start : Z)
  (r : record) : bool :=
  match DecodeInt (fst r) with
  | Ok (_, c) => c =? start
  | Err _ => false
  end.

(** Every goroutine takes a turn to return, then [Close] takes four. *)
Definition drain (sys : System) : list turn :=
  (map TurnExit (seq 0 (List.length (goroutines sys)))
   ++ [TurnClose; TurnClose; TurnClose; TurnClose])%list.

(** The goroutines that [Start] launches on a server. *)
Definition launched (s : Server) : list goroutine :=
  (mkGoroutine TCollector true :: mkGoroutine TPublisher true ::
   match metrics s with
   | Some _ => [mkGoroutine TMetrics true]
   | None => []
   end)%list.

(** The namespaces a store is opened with. *)
Definition namespaces (g : Globals) : list bytes :=
  [WindowNamespace g; BinlogNamespace g; SavePointNamespace g].

(** The response that holds the entries [sel]. *)
Definition response_of (sel : list entry) : DumpBinlogResp :=
  mkResp (map e_payload sel) (last (map e_cts sel) 0) "".

(** The entries of the sample world. *)
Definition sample_entries : list entry :=
  map (fun n => mkEntry n (Codec.encodePayload (payload_of n)) (payload_of n))
      [10; 11; 12; 13; 14; 15].

(** A world whose binlog bucket holds, after the entries at 10 to 12, a
    key too short to decode. *)
Definition short_key_world : World :=
  let w := sample_world 1 (firstn 3 six_entries) 13 in
  match store_put (boltdb (srv w)) (BinlogNamespace (globals w)) [xff] [x00] with
  | Ok st => mkWorld (globals w) (set_boltdb (srv w) st) (log w)
  | Err _ => w
  end.

Definition insufficient_bytes : error := ErrNew "insufficient bytes to decode value".

(** A [url.Parse] that rejects the listening address. *)
Definition parse_fails : string -> result string :=
  fun _ => Err (ErrNew "parse: missing protocol scheme").

(** A configuration with a metrics endpoint. *)
Definition metrics_config : Config :=
  mkConfig 1 "data.cistern" "http://127.0.0.1:8249" "127.0.0.1:9091" 15.

(** ** The diff test suite (test/diff/diff_test.go) *)

Module DiffTest.

Record testDBSuite : Type := mkSuite {
  user : string;
  pass : string;
  prot : string;
  addr : string;
  dbname : string;
  dsn : string;
  netAddr : string;
  available : bool
}.

(** The suite before [SetUpSuite]: every field at its zero value. *)
Definition zero_suite : testDBSuite := mkSuite "" "" "" "" "" "" "" false.

(** How a test ends: [c.Skip] and a failed [c.Assert] stop it. *)
Inductive outcome : Type := Skipped | Failed | Passed.

Section Suite.

(** [os.Getenv], which gives the empty string for an unset variable, and
    [net.Dial]. *)
Variable Getenv : string -> string.
Variable Dial : string -> string -> option error.

(** The closure [env] of [SetUpSuite]. *)
Definition env (key defaultValue : string) : string :=
  let value := Getenv key in
  if negb (String.eqb value "") then value else defaultValue.

Definition SetUpSuite (s : testDBSuite) : testDBSuite :=
  let user := env "MYSQL_TEST_USER" "root" in
  let pass := env "MYSQL_TEST_PASS" "" in
  let prot := env "MYSQL_TEST_PROT" "tcp" in
  let addr := env "MYSQL_TEST_ADDR" "localhost:4000" in
  let dbname := env "MYSQL_TEST_DBNAME" "test" in
  let netAddr := (prot ++ "(" ++ addr ++ ")")%string in
  let dsn := (user ++ ":" ++ pass ++ "@" ++ netAddr ++ "/" ++ dbname
              ++ "?timeout=30s&strict=true")%string in
  let available :=
    match Dial prot addr with
    | None => true
    | Some _ => available s
    end in
  mkSuite user pass prot addr dbname dsn netAddr available.

(** [sql.Open], and [New(db, db).Equal()] on the database of a DSN. *)
Variable sql_Open : string -> string -> option error.
Variable Equal : string -> bool * option error.

Definition TestDiff (s : testDBSuite) : outcome :=
  if negb (available s) then Skipped
  else
    match sql_Open "mysql" (dsn s) with
    | Some _ => Failed
    | None =>
        match Equal (dsn s) with
        | (_, Some _) => Failed
        | (eq, None) => if eq then Passed else Failed
        end
    end.

End Suite.

End DiffTest.

(** * Properties *)

(** ** Byte order *)

Lemma bytes_compare_refl (a : bytes) : bytes_compare a a = Eq.
Proof.
  induction a as [|x a IH]; simpl; [reflexivity|].
  now rewrite Z.compare_refl.
Qed.

Lemma bytes_compare_lt_trans (a b c : bytes) :
  bytes_compare a b = Lt -> bytes_compare b c = Lt -> bytes_compare a c = Lt.
Proof.
  revert b c; induction a as [|x a IH]; intros [|y b] [|z c]; simpl;
    try congruence.
  destruct (Z.compare_spec (byte_val x) (byte_val y)) as [Hxy|Hxy|Hxy];
    destruct (Z.compare_spec (byte_val y) (byte_val z)) as [Hyz|Hyz|Hyz];
    destruct (Z.compare_spec (byte_val x) (byte_val z)) as [Hxz|Hxz|Hxz];
    try congruence; try lia; eauto.
Qed.

Lemma bytes_ltb_trans (a b c : bytes) :
  bytes_ltb a b = true -> bytes_ltb b c = true -> bytes_ltb a c = true.
Proof.
  unfold bytes_ltb; intros Hab Hbc.
  destruct (bytes_compare a b) eqn:E1; try discriminate.
  destruct (bytes_compare b c) eqn:E2; try discriminate.
  now rewrite (bytes_compare_lt_trans _ _ _ E1 E2).
Qed.

Lemma bytes_ltb_irrefl (a : bytes) : bytes_ltb a a = false.
Proof. unfold bytes_ltb; now rewrite bytes_compare_refl. Qed.

(** ** The cursor *)

Lemma bucket_sorted_tail (r : record) (b : bucket) :
  bucket_sorted (r :: b) -> bucket_sorted b.
Proof.
  unfold bucket_sorted; simpl; destruct b as [|r2 b]; [reflexivity|].
  intros H; apply andb_prop in H; tauto.
Qed.

Lemma bucket_sorted_head (r : record) (b : bucket) :
  bucket_sorted (r :: b) -> Forall (fun r' => bytes_ltb (fst r) (fst r') = true) b.
Proof.
  revert r; induction b as [|r2 b IH]; intros r H; constructor.
  - unfold bucket_sorted in H; simpl in H; apply andb_prop in H; tauto.
  - assert (H1 : bytes_ltb (fst r) (fst r2) = true)
      by (unfold bucket_sorted in H; simpl in H; apply andb_prop in H; tauto).
    specialize (IH r2 (bucket_sorted_tail _ _ H)).
    eapply Forall_impl; [|exact IH].
    intros r' H2; simpl in H2; eapply bytes_ltb_trans; eauto.
Qed.

Lemma byte_val_inj (x y : byte) : byte_val x = byte_val y -> x = y.
Proof.
  unfold byte_val; intros H.
  apply N2Z.inj in H.
  pose proof (Byte.of_to_N x) as Hx; rewrite H, Byte.of_to_N in Hx.
  now inversion Hx.
Qed.

Lemma bytes_compare_eq (a : bytes) :
  forall b, bytes_compare a b = Eq -> a = b.
Proof.
  induction a as [|x a IH]; intros [|y b]; simpl; try discriminate; auto.
  destruct (Z.compare_spec (byte_val x) (byte_val y)) as [E|E|E]; try discriminate.
  intros H; rewrite (byte_val_inj _ _ E), (IH _ H); reflexivity.
Qed.

Lemma bytes_compare_antisym (a : bytes) :
  forall b, bytes_compare b a = CompOpp (bytes_compare a b).
Proof.
  induction a as [|x a IH]; intros [|y b]; simpl; auto.
  rewrite (Z.compare_antisym (byte_val x) (byte_val y)).
  destruct (byte_val x ?= byte_val y); simpl; auto.
Qed.

Lemma bucket_sorted_cons (r : record) (b : bucket) :
  bucket_sorted (r :: b) <-> above (fst r) b /\ bucket_sorted b.
Proof.
  unfold bucket_sorted, above; destruct b as [|r2 b].
  - simpl; tauto.
  - change (bucket_sortedb (r :: r2 :: b))
      with (bytes_ltb (fst r) (fst r2) && bucket_sortedb (r2 :: b)).
    rewrite andb_true_iff; tauto.
Qed.

(** [Put] keeps a bucket in key order. *)
Lemma bucket_put_sorted (b : bucket) (k v : bytes) :
  bucket_sorted b -> bucket_sorted (bucket_put b k v).
Proof.
  assert (Hmain : forall b, bucket_sorted b ->
            bucket_sorted (bucket_put b k v) /\
            forall k0, bytes_ltb k0 k = true -> above k0 b -> above k0 (bucket_put b k v)).
  { clear b; induction b as [|[k0 v0] b IH]; intros Hs.
    - split; [reflexivity|]; intros k1 H1 _; exact H1.
    - apply bucket_sorted_cons in Hs; destruct Hs as [Hab Hs]; cbn [fst] in Hab.
      destruct (IH Hs) as [IH1 IH2].
      cbn [bucket_put].
      destruct (bytes_compare k k0) eqn:E.
      + apply bytes_compare_eq in E; subst k0.
        split; [apply bucket_sorted_cons; auto|].
        intros k1 H1 _; exact H1.
      + split.
        * apply bucket_sorted_cons; split.
          -- cbn [above fst]; unfold bytes_ltb; now rewrite E.
          -- apply bucket_sorted_cons; auto.
        * intros k1 H1 _; exact H1.
      + split.
        * apply bucket_sorted_cons; split; [|exact IH1].
          apply IH2; [|exact Hab].
          cbn [fst]; unfold bytes_ltb.
          rewrite bytes_compare_antisym, E; reflexivity.
        * intros k1 _ H1; exact H1. }
  intros Hs; apply Hmain; exact Hs.
Qed.

(** [Delete] keeps a bucket in key order. *)
Lemma bucket_delete_sorted (b : bucket) (k : bytes) :
  bucket_sorted b -> bucket_sorted (bucket_delete b k).
Proof.
  assert (Hmain : forall b, bucket_sorted b ->
            bucket_sorted (bucket_delete b k) /\
            forall k0, above k0 b -> (forall r, In r b -> bytes_ltb k0 (fst r) = true) ->
                       above k0 (bucket_delete b k)).
  { clear b; induction b as [|[k0 v0] b IH]; intros Hs.
    - split; [reflexivity|auto].
    - pose proof (bucket_sorted_head _ _ Hs) as Hhead.
      apply bucket_sorted_cons in Hs; destruct Hs as [Hab Hs]; cbn [fst] in Hab.
      destruct (IH Hs) as [IH1 IH2].
      cbn [bucket_delete].
      destruct (bytes_eqb k k0).
      + split; [exact Hs|].
        intros k1 _ Hall; destruct b as [|r b]; [exact I|].
        apply Hall; right; left; reflexivity.
      + split.
        * apply bucket_sorted_cons; split; [|exact IH1].
          apply IH2; [exact Hab|].
          rewrite Forall_forall in Hhead; exact Hhead.
        * intros k1 H1 _; exact H1. }
  intros Hs; apply Hmain; exact Hs.
Qed.

Lemma set_bucket_sorted (bs : list (bytes * bucket)) (ns : bytes) (b : bucket) :
  Forall (fun nb => bucket_sorted (snd nb)) bs -> bucket_sorted b ->
  Forall (fun nb => bucket_sorted (snd nb)) (set_bucket bs ns b).
Proof.
  induction bs as [|[n b0] bs IH]; intros Hall Hb; cbn [set_bucket]; [constructor|].
  inversion Hall; subst.
  destruct (bytes_eqb n ns); constructor; auto.
Qed.

Lemma find_bucket_sorted (bs : list (bytes * bucket)) (ns : bytes) (b : bucket) :
  Forall (fun nb => bucket_sorted (snd nb)) bs ->
  find_bucket bs ns = Some b -> bucket_sorted b.
Proof.
  induction bs as [|[n b0] bs IH]; intros Hall Hf; cbn [find_bucket] in Hf;
    [discriminate|].
  inversion Hall; subst.
  destruct (bytes_eqb n ns); [inversion Hf; subst; assumption|auto].
Qed.

(** The store's operations keep every bucket in key order, starting from
    the empty store. *)
Lemma empty_store_sorted (nss : list bytes) : store_sorted (empty_store nss).
Proof.
  unfold store_sorted, empty_store; cbn [buckets].
  induction nss; constructor; auto; reflexivity.
Qed.

Lemma store_put_sorted (s s' : Store) (ns k v : bytes) :
  store_sorted s -> store_put s ns k v = Ok s' -> store_sorted s'.
Proof.
  unfold store_sorted, store_put; intros Hs H.
  destruct (find_bucket (buckets s) ns) as [b|] eqn:E; [|discriminate].
  inversion H; subst; cbn [buckets].
  apply set_bucket_sorted; [exact Hs|].
  apply bucket_put_sorted; eapply find_bucket_sorted; eauto.
Qed.

Lemma store_delete_sorted (s s' : Store) (ns k : bytes) :
  store_sorted s -> store_delete s ns k = Ok s' -> store_sorted s'.
Proof.
  unfold store_sorted, store_delete; intros Hs H.
  destruct (find_bucket (buckets s) ns) as [b|] eqn:E; [|discriminate].
  inversion H; subst; cbn [buckets].
  apply set_bucket_sorted; [exact Hs|].
  apply bucket_delete_sorted; eapply find_bucket_sorted; eauto.
Qed.

(** The bucket that [DumpBinlog] scans is in key order in a sorted store. *)
Lemma binlog_bucket_sorted (w : World) :
  store_sorted (boltdb (srv w)) -> bucket_sorted (binlog_bucket w).
Proof.
  unfold binlog_bucket; intros Hs.
  destruct (find_bucket _ _) as [b|] eqn:E; [|reflexivity].
  eapply find_bucket_sorted; eauto.
Qed.

(** Every record from the cursor on has a key not below the start key. *)
Lemma seek_not_below (b : bucket) (startKey : bytes) :
  bucket_sorted b ->
  Forall (fun r => bytes_ltb (fst r) startKey = false) (seek b startKey).
Proof.
  induction b as [|[k v] b IH]; intros Hs; simpl; [constructor|].
  destruct (bytes_ltb k startKey) eqn:E.
  - apply IH; eapply bucket_sorted_tail; eauto.
  - constructor; [exact E|].
    eapply Forall_impl; [|exact (bucket_sorted_head _ _ Hs)].
    intros r' H; simpl in H.
    destruct (bytes_ltb (fst r') startKey) eqn:E'; [|reflexivity].
    now rewrite (bytes_ltb_trans _ _ _ H E') in E.
Qed.

Lemma subseq_refl {A : Type} (l : list A) : subseq l l.
Proof. induction l; [apply subseq_nil|apply subseq_take; assumption]. Qed.

Lemma subseq_trans {A : Type} (l1 l2 l3 : list A) :
  subseq l1 l2 -> subseq l2 l3 -> subseq l1 l3.
Proof.
  intros H12 H23; revert l1 H12.
  induction H23 as [l|x l2 l3 H IH|x l2 l3 H IH]; intros l1 H12.
  - inversion H12; subst; apply subseq_nil.
  - apply subseq_skip; auto.
  - inversion H12; subst;
      [apply subseq_nil|apply subseq_skip; auto|apply subseq_take; auto].
Qed.

Lemma subseq_Forall {A : Type} (P : A -> Prop) (l1 l2 : list A) :
  subseq l1 l2 -> Forall P l2 -> Forall P l1.
Proof.
  induction 1 as [l|x l1 l2 H IH|x l1 l2 H IH]; intros HF.
  - constructor.
  - inversion HF; subst; auto.
  - inversion HF; subst; constructor; auto.
Qed.

Lemma seek_subseq (b : bucket) (startKey : bytes) : subseq (seek b startKey) b.
Proof.
  induction b as [|[k v] b IH]; simpl; [apply subseq_nil|].
  destruct (bytes_ltb k startKey); [apply subseq_skip; exact IH|apply subseq_refl].
Qed.

(** ** The scan *)

Lemma world_eta (w : World) : mkWorld (globals w) (srv w) (log w) = w.
Proof. now destruct w. Qed.

(** A callback without effects leaves the world alone: the scan only
    adds the visits to the log. *)
Lemma scan_records_pure {S : Type}
  (f : bytes -> bytes -> S -> S * (bool * option error)) (rs : bucket) :
  forall (s : S) (w : World),
    scan_records (fun k v st w' => (f k v st, w')) rs s w =
    (fst (scan_pure f rs s),
     mkWorld (globals w) (srv w) (log w ++ map EvVisit (snd (scan_pure f rs s)))).
Proof.
  induction rs as [|[k v] rs IH]; intros s w; simpl.
  - unfold pure; simpl; now rewrite app_nil_r, world_eta.
  - unfold bind, emit, pure; simpl.
    destruct (f k v s) as [s' [valid [e|]]]; simpl.
    + reflexivity.
    + destruct valid.
      * unfold bind, emit, pure in IH; rewrite IH; simpl.
        destruct (scan_pure f rs s') as [r ks]; simpl.
        now rewrite <- app_assoc.
      * reflexivity.
Qed.

Lemma scan_pure_cons {S : Type}
  (f : bytes -> bytes -> S -> S * (bool * option error))
  (k v : bytes) (rs : bucket) (s : S) :
  scan_pure f ((k, v) :: rs) s =
  match f k v s with
  | (s', (_, Some e)) => ((s', Some e), [k])
  | (s', (true, None)) => (fst (scan_pure f rs s'), k :: snd (scan_pure f rs s'))
  | (s', (false, None)) => ((s', None), [k])
  end.
Proof.
  simpl; destruct (f k v s) as [s' [[|] [e|]]]; try reflexivity.
  now destruct (scan_pure f rs s').
Qed.

Lemma scan_pure_app {S : Type}
  (f : bytes -> bytes -> S -> S * (bool * option error)) (pre rest : bucket) :
  forall (s s1 : S),
    run_through f pre s = Some s1 ->
    scan_pure f (pre ++ rest) s =
    (fst (scan_pure f rest s1), map fst pre ++ snd (scan_pure f rest s1)).
Proof.
  induction pre as [|[k v] pre IH]; intros s s1 H; simpl in *.
  - inversion H; subst; now destruct (scan_pure f rest s1).
  - destruct (f k v s) as [s' [[|] [e|]]]; try discriminate.
    now rewrite (IH _ _ H).
Qed.

Lemma last_cons_default {A : Type} (l : list A) (x d : A) :
  last (x :: l) d = last l x.
Proof.
  revert x d; induction l as [|y l IH]; intros x d; [reflexivity|].
  change (last (x :: y :: l) d) with (last (y :: l) d).
  now rewrite !IH.
Qed.

Lemma int32_wrap_small (z : Z) : - 2 ^ 31 <= z < 2 ^ 31 -> int32_wrap z = z.
Proof.
  intros H; unfold int32_wrap.
  rewrite Z.mod_small; lia.
Qed.

Lemma int32_wrap_range (z : Z) : - 2 ^ 31 <= int32_wrap z < 2 ^ 31.
Proof.
  unfold int32_wrap.
  pose proof (Z.mod_pos_bound (z + 2 ^ 31) (2 ^ 32) ltac:(lia)); lia.
Qed.

Section RangeQueryFacts.

Variable EncodeInt : bytes -> Z -> bytes.
Variable DecodeInt : bytes -> result (bytes * Z).
Variable decodePayload : bytes -> result (bytes * Z).

Local Abbreviation cb := (dump_callback DecodeInt decodePayload).
Local Abbreviation case_of := (callback_case DecodeInt decodePayload).
Local Abbreviation post := (scan_post DecodeInt decodePayload).

Lemma dump_callback_case (start end_ : Z) (k v : bytes)
  (r0 : DumpBinlogResp) (limit : Z) :
  case_of start end_ k v r0 limit (cb start end_ k v (r0, limit)).
Proof.
  unfold dump_callback.
  destruct (Z.leb_spec limit 0) as [Hl|Hl]; [now apply case_limit|].
  destruct (DecodeInt k) as [[rest cts]|e] eqn:Ek;
    [|simpl; eapply case_bad_key; eauto].
  destruct (Z.eqb_spec cts start) as [->|Hne]; [eapply case_skip; eauto|].
  destruct (Z.geb_spec cts end_) as [Hge|Hlt]; [eapply case_unsafe; eauto; lia|].
  destruct (decodePayload v) as [[payload age]|e] eqn:Ev.
  - simpl; eapply case_append; eauto.
  - simpl; eapply case_bad_payload; eauto.
Qed.

Lemma callback_limit (start end_ : Z) (k v : bytes) (r : DumpBinlogResp) (limit : Z) :
  limit <= 0 -> cb start end_ k v (r, limit) = ((r, limit), (false, None)).
Proof.
  intros H; unfold dump_callback.
  now destruct (Z.leb_spec limit 0); [|lia].
Qed.

Lemma callback_bad_key (start end_ : Z) (k v : bytes) (r : DumpBinlogResp)
  (limit : Z) (e : error) :
  0 < limit -> DecodeInt k = Err e ->
  cb start end_ k v (r, limit) = ((r, limit), (false, Some (ErrTrace e))).
Proof.
  intros H Hk; unfold dump_callback; rewrite Hk.
  now destruct (Z.leb_spec limit 0); [lia|].
Qed.

Lemma callback_skip (start end_ : Z) (k v : bytes) (r : DumpBinlogResp)
  (limit : Z) (rest : bytes) :
  0 < limit -> DecodeInt k = Ok (rest, start) ->
  cb start end_ k v (r, limit) = ((r, limit), (true, None)).
Proof.
  intros H Hk; unfold dump_callback; rewrite Hk, Z.eqb_refl.
  now destruct (Z.leb_spec limit 0); [lia|].
Qed.

Lemma callback_unsafe (start end_ : Z) (k v : bytes) (r : DumpBinlogResp)
  (limit : Z) (rest : bytes) (cts : Z) :
  0 < limit -> DecodeInt k = Ok (rest, cts) -> cts <> start -> end_ <= cts ->
  cb start end_ k v (r, limit) = ((r, limit), (false, None)).
Proof.
  intros H Hk Hne Hge; unfold dump_callback; rewrite Hk.
  destruct (Z.leb_spec limit 0); [lia|].
  destruct (Z.eqb_spec cts start); [contradiction|].
  now destruct (Z.geb_spec cts end_); [|lia].
Qed.

Lemma callback_bad_payload (start end_ : Z) (k v : bytes) (r : DumpBinlogResp)
  (limit : Z) (rest : bytes) (cts : Z) (e : error) :
  0 < limit -> DecodeInt k = Ok (rest, cts) -> cts <> start -> cts < end_ ->
  decodePayload v = Err e ->
  cb start end_ k v (r, limit) = ((r, limit), (false, Some (ErrTrace e))).
Proof.
  intros H Hk Hne Hlt Hv; unfold dump_callback; rewrite Hk, Hv.
  destruct (Z.leb_spec limit 0); [lia|].
  destruct (Z.eqb_spec cts start); [contradiction|].
  now destruct (Z.geb_spec cts end_); [lia|].
Qed.

Lemma callback_append (start end_ : Z) (k v : bytes) (r : DumpBinlogResp)
  (limit : Z) (rest : bytes) (cts : Z) (payload : bytes) (age : Z) :
  0 < limit -> DecodeInt k = Ok (rest, cts) -> cts <> start -> cts < end_ ->
  decodePayload v = Ok (payload, age) ->
  cb start end_ k v (r, limit) =
  ((mkResp (Payloads r ++ [payload]) cts (Errmsg r), int32_wrap (limit - 1)),
   (true, None)).
Proof.
  intros H Hk Hne Hlt Hv; unfold dump_callback; rewrite Hk, Hv.
  destruct (Z.leb_spec limit 0); [lia|].
  destruct (Z.eqb_spec cts start); [contradiction|].
  now destruct (Z.geb_spec cts end_); [lia|].
Qed.

Lemma scan_limit_reached (start end_ : Z) (rs : bucket) (r0 : DumpBinlogResp)
  (limit : Z) :
  limit <= 0 ->
  scan_pure (cb start end_) rs (r0, limit) =
  (((r0, limit), None), firstn 1 (map fst rs)).
Proof.
  intros H; destruct rs as [|[k v] rs]; [reflexivity|].
  now rewrite scan_pure_cons, callback_limit.
Qed.

Lemma scan_post_stop (start end_ : Z) (rs : bucket) (r0 : DumpBinlogResp)
  (limit : Z) (err : option error) :
  post start end_ rs r0 limit ((r0, limit), err) [].
Proof.
  unfold scan_post; simpl; rewrite app_nil_r.
  repeat split; try constructor; try lia.
Qed.

(** The scan's loop with the callback of [DumpBinlog]. *)
Lemma scan_dump_post (start end_ : Z) (rs : bucket) :
  forall (r0 : DumpBinlogResp) (limit : Z),
  exists es,
    post start end_ rs r0 limit (fst (scan_pure (cb start end_) rs (r0, limit))) es.
Proof.
  induction rs as [|[k v] rs IH]; intros r0 limit.
  - exists []; simpl; apply scan_post_stop.
  - pose proof (dump_callback_case start end_ k v r0 limit) as Hc.
    rewrite scan_pure_cons.
    destruct Hc
      as [Hl|e Hl Hk|rest Hl Hk|rest cts Hl Hk Hne Hge|rest cts e Hl Hk Hne Hlt Hv
          |rest cts payload age Hl Hk Hne Hlt Hv];
      cbn [fst snd]; try (exists []; apply scan_post_stop).
    + destruct (IH r0 limit) as [es Hes].
      exists es; unfold scan_post in *.
      destruct Hes as (Hsub & Hrest); split; [apply subseq_skip; exact Hsub|exact Hrest].
    + destruct (IH (mkResp (Payloads r0 ++ [payload]) cts (Errmsg r0))
                   (int32_wrap (limit - 1))) as [es Hes].
      exists (mkAppended k v cts payload :: es); unfold scan_post in *.
      cbn [map a_record a_key a_val a_cts a_payload Payloads EndCommitTS Errmsg
           List.length] in *.
      destruct Hes as (Hsub & Hdec & Hbnd & Hpl & Hend & Hmsg & Hlim).
      split; [apply subseq_take; exact Hsub|].
      split; [constructor; [split; simpl; eauto|exact Hdec]|].
      split; [constructor; [simpl; lia|exact Hbnd]|].
      split; [rewrite Hpl, <- app_assoc; reflexivity|].
      split; [rewrite Hend; symmetry; apply last_cons_default|].
      split; [exact Hmsg|].
      intros Hsmall.
      pose proof (int32_wrap_range (limit - 1)) as Hr.
      rewrite int32_wrap_small in Hlim |- * by lia.
      destruct Hlim as (H1 & H2 & H3); [lia|].
      assert (Hpos : 0 <= snd (fst (fst (scan_pure (cb start end_) rs
                 (mkResp (Payloads r0 ++ [payload]) cts (Errmsg r0), limit - 1))))).
      { destruct (Z.eq_dec limit 1) as [->|Hne1]; [|lia].
        rewrite H3 in H1 by lia; cbn [List.length] in H1; lia. }
      repeat split; try lia; intros; exfalso; lia.
Qed.

(** The keys the scan calls the callback on are the first keys of [rs]. *)
Lemma scan_pure_visits {S : Type}
  (f : bytes -> bytes -> S -> S * (bool * option error)) (rs : bucket) :
  forall s : S, exists rest, map fst rs = (snd (scan_pure f rs s) ++ rest)%list.
Proof.
  induction rs as [|[k v] rs IH]; intros s.
  - exists []; reflexivity.
  - rewrite scan_pure_cons.
    destruct (f k v s) as [s' [[|] [e|]]]; cbn [fst snd map].
    + exists (map fst rs); reflexivity.
    + destruct (IH s') as [rest Hrest]; exists rest; rewrite Hrest; reflexivity.
    + exists (map fst rs); reflexivity.
    + exists (map fst rs); reflexivity.
Qed.

Lemma subseq_map {A B : Type} (g : A -> B) (l1 l2 : list A) :
  subseq l1 l2 -> subseq (map g l1) (map g l2).
Proof.
  induction 1; simpl;
    [apply subseq_nil|apply subseq_skip; assumption|apply subseq_take; assumption].
Qed.

Lemma subseq_prefix {A : Type} (l1 l2 : list A) : subseq l1 (l1 ++ l2).
Proof.
  induction l1; simpl; [apply subseq_nil|apply subseq_take; assumption].
Qed.

(** [dump_scan], step by step: the window's lower bound is read, the
    namespace variable is read, and the scan runs over the records from
    the start key on. *)
Lemma dump_scan_eq (req : DumpBinlogReq) (w : World) :
  dump_scan EncodeInt DecodeInt decodePayload req w =
  match find_bucket (buckets (boltdb (srv w))) (BinlogNamespace (globals w)) with
  | None =>
      (((mkResp [] 0 "", Limit req), Some ErrBucketNotFound),
       mkWorld (globals w) (srv w)
         (log w ++ [EvLoadLower;
                    EvScan (BinlogNamespace (globals w))
                           (EncodeInt [] (BeginCommitTS req))]))
  | Some b =>
      let r := scan_pure (cb (BeginCommitTS req) (lower (window (srv w))))
                 (seek b (EncodeInt [] (BeginCommitTS req)))
                 (mkResp [] 0 "", Limit req) in
      (fst r,
       mkWorld (globals w) (srv w)
         (log w ++ EvLoadLower
                :: EvScan (BinlogNamespace (globals w))
                          (EncodeInt [] (BeginCommitTS req))
                :: map EvVisit (snd r)))
  end.
Proof.
  unfold dump_scan, LoadLower, Scan, get_server, get_globals, bind, emit, pure.
  cbn [globals srv log fst snd].
  destruct (find_bucket (buckets (boltdb (srv w))) (BinlogNamespace (globals w)))
    as [b|].
  - rewrite scan_records_pure; cbn [globals srv log fst snd].
    now rewrite <- !app_assoc.
  - now rewrite <- !app_assoc.
Qed.

(** The second half of [DumpBinlog]: the error's text goes into [Errmsg],
    and the error, traced, is the second result. *)
Lemma DumpBinlog_eq (req : DumpBinlogReq) (w : World) :
  DumpBinlog EncodeInt DecodeInt decodePayload req w =
  let out := dump_scan EncodeInt DecodeInt decodePayload req w in
  let ret1 := fst (fst (fst out)) in
  ((match snd (fst out) with
    | Some e => mkResp (Payloads ret1) (EndCommitTS ret1) (Error e)
    | None => ret1
    end,
    Trace (snd (fst out))),
   snd out).
Proof.
  unfold DumpBinlog, bind, pure.
  destruct (dump_scan EncodeInt DecodeInt decodePayload req w)
    as [[[ret1 lim] err] w1]; reflexivity.
Qed.

(** The records that [DumpBinlog] scans, and what the scan leaves. *)
Lemma dump_scan_post (req : DumpBinlogReq) (w : World) :
  exists es,
    post (BeginCommitTS req) (lower (window (srv w)))
         (seek (binlog_bucket w) (EncodeInt [] (BeginCommitTS req)))
         (mkResp [] 0 "") (Limit req)
         (fst (dump_scan EncodeInt DecodeInt decodePayload req w)) es.
Proof.
  rewrite dump_scan_eq; unfold binlog_bucket.
  destruct (find_bucket (buckets (boltdb (srv w))) (BinlogNamespace (globals w)))
    as [b|]; cbn [fst snd].
  - apply scan_dump_post.
  - exists []; apply scan_post_stop.
Qed.

End RangeQueryFacts.

(** ** The range query: what [DumpBinlog] returns and touches *)

Section RangeQueryProperties.

Variable EncodeInt : bytes -> Z -> bytes.
Variable DecodeInt : bytes -> result (bytes * Z).
Variable decodePayload : bytes -> result (bytes * Z).

Local Abbreviation dump := (DumpBinlog EncodeInt DecodeInt decodePayload).
Local Abbreviation scan_of := (dump_scan EncodeInt DecodeInt decodePayload).
Local Abbreviation cb := (dump_callback DecodeInt decodePayload).

(** The response carries the closure's payloads and end timestamp,
    whether the scan failed or not. *)
Lemma DumpBinlog_fields (req : DumpBinlogReq) (w : World) :
  Payloads (fst (fst (dump req w))) = Payloads (fst (fst (fst (scan_of req w)))) /\
  EndCommitTS (fst (fst (dump req w))) = EndCommitTS (fst (fst (fst (scan_of req w)))) /\
  snd (dump req w) = snd (scan_of req w).
Proof.
  rewrite DumpBinlog_eq; cbn [fst snd].
  destruct (snd (fst (scan_of req w))); auto.
Qed.

(** C9: [DumpBinlog] is read-only.  For every request and world, the
    package variables and the whole server state (store, window and the
    rest) are the same after the call as before; what the call did to its
    collaborators is one read of the window's lower bound, one scan of the
    binlog namespace from the start key, and the visits of that scan,
    which are keys of the binlog bucket in order. *)
Theorem DumpBinlog_read_only (req : DumpBinlogReq) (w : World) :
  let w' := snd (dump req w) in
  globals w' = globals w /\
  srv w' = srv w /\
  exists ks,
    subseq ks (map fst (binlog_bucket w)) /\
    log w' = (log w ++ EvLoadLower
                    :: EvScan (BinlogNamespace (globals w))
                              (EncodeInt [] (BeginCommitTS req))
                    :: map EvVisit ks)%list.
Proof.
  cbn zeta.
  destruct (DumpBinlog_fields req w) as (_ & _ & ->).
  rewrite dump_scan_eq; unfold binlog_bucket.
  destruct (find_bucket (buckets (boltdb (srv w))) (BinlogNamespace (globals w)))
    as [b|]; cbn [fst snd globals srv log].
  - repeat split.
    match goal with
    | |- context [snd (scan_pure ?f ?rs ?s)] =>
        destruct (scan_pure_visits f rs s) as [rest Hrest];
        exists (snd (scan_pure f rs s))
    end.
    split; [|reflexivity].
    eapply subseq_trans; [|apply subseq_map, seek_subseq].
    rewrite Hrest; apply subseq_prefix.
  - repeat split. exists []; split; [apply subseq_nil|reflexivity].
Qed.

(** C3, as the code has it: when [DumpBinlog] returns no payload, the
    response's [EndCommitTS] is 0, the value of the fresh response,
    whatever the request's [BeginCommitTS]. *)
Theorem DumpBinlog_empty_end (req : DumpBinlogReq) (w : World) :
  Payloads (fst (fst (dump req w))) = [] ->
  EndCommitTS (fst (fst (dump req w))) = 0.
Proof.
  destruct (DumpBinlog_fields req w) as (-> & -> & _).
  destruct (dump_scan_post EncodeInt DecodeInt decodePayload req w) as [es Hes].
  unfold scan_post in Hes; cbn [Payloads EndCommitTS app] in Hes.
  destruct Hes as (_ & _ & _ & Hpl & Hend & _).
  intros Hnil; rewrite Hnil in Hpl.
  destruct es; [exact Hend|discriminate].
Qed.

(** C5: with [0 < limit], at most [limit] payloads are returned.  The
    closure's remaining limit at the end of the scan is the requested
    limit less one per payload and is not negative, and a callback that
    finds the remaining limit at zero stops the scan and changes nothing. *)
Theorem DumpBinlog_limit (req : DumpBinlogReq) (w : World) :
  0 < Limit req ->
  in_int32 (Limit req) ->
  let resp := fst (fst (dump req w)) in
  let remaining := snd (fst (fst (scan_of req w))) in
  Z.of_nat (List.length (Payloads resp)) <= Limit req /\
  remaining = Limit req - Z.of_nat (List.length (Payloads resp)) /\
  0 <= remaining /\
  (forall start end_ k v r,
      cb start end_ k v (r, 0) = ((r, 0), (false, None))) /\
  (forall start end_ rs r,
      scan_pure (cb start end_) rs (r, 0) =
      (((r, 0), None), firstn 1 (map fst rs))).
Proof.
  intros Hpos [_ Hsmall]; cbn zeta.
  destruct (DumpBinlog_fields req w) as (-> & _ & _).
  destruct (dump_scan_post EncodeInt DecodeInt decodePayload req w) as [es Hes].
  unfold scan_post in Hes; cbn [Payloads app] in Hes.
  destruct Hes as (_ & _ & _ & Hpl & _ & _ & Hlim).
  destruct (Hlim Hsmall) as (H1 & H2 & _).
  rewrite Hpl, length_map.
  repeat split; try lia.
  intros; apply scan_limit_reached; lia.
Qed.

(** The entries behind the returned payloads: stored records of the
    binlog bucket, in bucket order, none at [BeginCommitTS] and all below
    the window's lower bound. *)
Lemma DumpBinlog_entries (req : DumpBinlogReq) (w : World) :
  exists es,
    Payloads (fst (fst (dump req w))) = map a_payload es /\
    EndCommitTS (fst (fst (dump req w))) = last (map a_cts es) 0 /\
    Forall (decodes DecodeInt decodePayload) es /\
    subseq (map a_record es)
           (seek (binlog_bucket w) (EncodeInt [] (BeginCommitTS req))) /\
    Forall (fun a => a_cts a <> BeginCommitTS req /\
                     a_cts a < lower (window (srv w))) es.
Proof.
  destruct (DumpBinlog_fields req w) as (-> & -> & _).
  destruct (dump_scan_post EncodeInt DecodeInt decodePayload req w) as [es Hes].
  unfold scan_post in Hes; cbn [Payloads EndCommitTS app] in Hes.
  destruct Hes as (Hsub & Hdec & Hbnd & Hpl & Hend & _).
  exists es; auto.
Qed.

(** Between the request's start and the window's lower bound. *)
Lemma DumpBinlog_between (req : DumpBinlogReq) (w : World) :
  codec_ok EncodeInt DecodeInt ->
  in_int64 (BeginCommitTS req) ->
  bucket_sorted (binlog_bucket w) ->
  exists es,
    Payloads (fst (fst (dump req w))) = map a_payload es /\
    Forall (decodes DecodeInt decodePayload) es /\
    subseq (map a_record es) (binlog_bucket w) /\
    Forall (fun a => BeginCommitTS req < a_cts a < lower (window (srv w))) es.
Proof.
  intros Hcodec Hstart Hsorted.
  destruct (DumpBinlog_entries req w) as (es & Hpl & _ & Hdec & Hsub & Hbnd).
  exists es; repeat split; auto.
  - eapply subseq_trans; [exact Hsub|apply seek_subseq].
  - pose proof (seek_not_below _ (EncodeInt [] (BeginCommitTS req)) Hsorted) as Hge.
    pose proof (subseq_Forall _ _ _ Hsub Hge) as Hge'.
    rewrite Forall_map in Hge'.
    rewrite Forall_forall in *.
    intros a Ha.
    destruct (Hdec a Ha) as [[rest Hk] _].
    pose proof (codec_order _ _ Hcodec _ _ _ _ Hstart (Hge' a Ha) Hk).
    specialize (Hbnd a Ha); lia.
Qed.

(** The boundary example, for any codec and payload decoder. *)
Lemma DumpBinlog_boundary_example
  (v10 v11 v12 v13 v14 v15 p11 p12 : bytes) (age11 age12 : Z) (w : World) :
  codec_ok EncodeInt DecodeInt ->
  find_bucket (buckets (boltdb (srv w))) (BinlogNamespace (globals w)) =
    Some [(EncodeInt [] 10, v10); (EncodeInt [] 11, v11); (EncodeInt [] 12, v12);
          (EncodeInt [] 13, v13); (EncodeInt [] 14, v14); (EncodeInt [] 15, v15)] ->
  lower (window (srv w)) = 13 ->
  decodePayload v11 = Ok (p11, age11) ->
  decodePayload v12 = Ok (p12, age12) ->
  fst (dump (mkReq 10 10) w) = (mkResp [p11; p12] 12 "", None).
Proof.
  intros Hcodec Hb Hlo H11 H12.
  assert (Hrt : forall v, - 2 ^ 63 <= v < 2 ^ 63 ->
                          DecodeInt (EncodeInt [] v) = Ok ([], v))
    by (intros v Hv; apply (codec_roundtrip _ _ Hcodec); exact Hv).
  rewrite DumpBinlog_eq, dump_scan_eq, Hb, Hlo.
  cbn [BeginCommitTS Limit seek].
  rewrite bytes_ltb_irrefl.
  rewrite scan_pure_cons, (callback_skip _ _ _ _ _ _ _ _ [])
    by (try apply Hrt; lia).
  rewrite scan_pure_cons,
    (callback_append _ _ _ _ _ _ _ _ [] 11 p11 age11)
    by (try apply Hrt; auto; lia).
  rewrite int32_wrap_small by lia.
  rewrite scan_pure_cons,
    (callback_append _ _ _ _ _ _ _ _ [] 12 p12 age12)
    by (try apply Hrt; auto; lia).
  rewrite int32_wrap_small by lia.
  rewrite scan_pure_cons, (callback_unsafe _ _ _ _ _ _ _ _ [] 13)
    by (try apply Hrt; lia).
  reflexivity.
Qed.

(** C1: every entry whose payload [DumpBinlog] returns has its commitTS
    strictly above the request's [BeginCommitTS] and strictly below the
    window's lower bound read at the start of the call, for a binlog
    bucket in key order and an order-preserving key codec; and with
    entries at commitTS 10 to 15, the lower bound at 13, [BeginCommitTS]
    10 and limit 10, the response holds the payloads of the entries at 11
    and 12, [EndCommitTS] 12 and no error. *)
Theorem DumpBinlog_window_bounds :
  (forall req w,
      codec_ok EncodeInt DecodeInt ->
      in_int64 (BeginCommitTS req) ->
      bucket_sorted (binlog_bucket w) ->
      exists es,
        Payloads (fst (fst (dump req w))) = map a_payload es /\
        Forall (decodes DecodeInt decodePayload) es /\
        subseq (map a_record es) (binlog_bucket w) /\
        Forall (fun a => BeginCommitTS req < a_cts a < lower (window (srv w))) es) /\
  (forall v10 v11 v12 v13 v14 v15 p11 p12 age11 age12 w,
      codec_ok EncodeInt DecodeInt ->
      find_bucket (buckets (boltdb (srv w))) (BinlogNamespace (globals w)) =
        Some [(EncodeInt [] 10, v10); (EncodeInt [] 11, v11); (EncodeInt [] 12, v12);
              (EncodeInt [] 13, v13); (EncodeInt [] 14, v14); (EncodeInt [] 15, v15)] ->
      lower (window (srv w)) = 13 ->
      decodePayload v11 = Ok (p11, age11) ->
      decodePayload v12 = Ok (p12, age12) ->
      fst (dump (mkReq 10 10) w) = (mkResp [p11; p12] 12 "", None)).
Proof.
  split.
  - intros; now apply DumpBinlog_between.
  - intros; eapply DumpBinlog_boundary_example; eauto.
Qed.

Lemma forallb_subseq {A : Type} (q : A -> bool) (l1 l2 : list A) :
  subseq l1 l2 -> forallb q l2 = true -> forallb q l1 = true.
Proof.
  induction 1 as [l|x l1 l2 H IH|x l1 l2 H IH]; simpl; intros Hq.
  - reflexivity.
  - apply andb_prop in Hq; tauto.
  - apply andb_prop in Hq; destruct Hq as [Hx Hl]; rewrite Hx; auto.
Qed.

Lemma cts_increasing_subseq (l1 l2 : bucket) :
  subseq l1 l2 ->
  cts_increasing DecodeInt l2 = true -> cts_increasing DecodeInt l1 = true.
Proof.
  induction 1 as [l|x l1 l2 H IH|x l1 l2 H IH]; simpl; intros Hq.
  - reflexivity.
  - apply andb_prop in Hq; tauto.
  - apply andb_prop in Hq; destruct Hq as [Hx Hl].
    rewrite (forallb_subseq _ _ _ H Hx); auto.
Qed.

Lemma cts_increasing_sorted (es : list appended) :
  cts_increasing DecodeInt (map a_record es) = true ->
  Forall (decodes DecodeInt decodePayload) es ->
  StronglySorted Z.lt (map a_cts es).
Proof.
  induction es as [|a es IH]; simpl; intros Hinc Hdec; [constructor|].
  apply andb_prop in Hinc; destruct Hinc as [Ha Hinc].
  inversion Hdec as [|a' es' [[rest Hk] _] Hdec']; subst.
  constructor; [auto|].
  rewrite Forall_map, Forall_forall; intros b Hb.
  rewrite forallb_forall in Ha.
  specialize (Ha (a_record b) (in_map a_record _ _ Hb)).
  rewrite Forall_forall in Hdec'.
  destruct (Hdec' b Hb) as [[rest' Hk'] _].
  unfold cts_ltb, a_record in Ha; cbn [fst] in Ha.
  rewrite Hk, Hk' in Ha; lia.
Qed.

(** C6: when the records from the cursor on come in strictly increasing
    commitTS order, the returned payloads are those of entries of the
    binlog bucket whose commitTS strictly increase along the list, and
    [EndCommitTS] is the commitTS of the last of them (0 when there is
    none). *)
Theorem DumpBinlog_ordered (req : DumpBinlogReq) (w : World) :
  cts_increasing DecodeInt
    (seek (binlog_bucket w) (EncodeInt [] (BeginCommitTS req))) = true ->
  exists es,
    Payloads (fst (fst (dump req w))) = map a_payload es /\
    Forall (decodes DecodeInt decodePayload) es /\
    subseq (map a_record es) (binlog_bucket w) /\
    StronglySorted Z.lt (map a_cts es) /\
    EndCommitTS (fst (fst (dump req w))) = last (map a_cts es) 0.
Proof.
  intros Hinc.
  destruct (DumpBinlog_entries req w) as (es & Hpl & Hend & Hdec & Hsub & _).
  exists es; repeat split; auto.
  - eapply subseq_trans; [exact Hsub|apply seek_subseq].
  - apply cts_increasing_sorted; [|exact Hdec].
    eapply cts_increasing_subseq; eauto.
Qed.

(** An error of the scan's loop is the trace of a decoder's error on a
    key or on a value of the scanned records. *)
Lemma scan_dump_error (start end_ : Z) (rs : bucket) :
  forall r0 limit e,
    snd (fst (scan_pure (cb start end_) rs (r0, limit))) = Some e ->
    exists e0,
      e = ErrTrace e0 /\
      ((exists k, In k (map fst rs) /\ DecodeInt k = Err e0) \/
       (exists v, In v (map snd rs) /\ decodePayload v = Err e0)).
Proof.
  induction rs as [|[k v] rs IH]; intros r0 limit e; [discriminate|].
  pose proof (dump_callback_case DecodeInt decodePayload start end_ k v r0 limit) as Hc.
  rewrite scan_pure_cons.
  destruct Hc
    as [Hl|e1 Hl Hk|rest Hl Hk|rest cts Hl Hk Hne Hge|rest cts e1 Hl Hk Hne Hlt Hv
        |rest cts payload age Hl Hk Hne Hlt Hv];
    cbn [fst snd map]; intros He; try discriminate.
  - inversion He; subst; exists e1; split; [reflexivity|].
    left; exists k; split; [now left|assumption].
  - destruct (IH _ _ _ He) as (e0 & -> & [(k' & Hin & Hk')|(v' & Hin & Hv')]);
      exists e0; split; try reflexivity;
      [left; exists k'|right; exists v']; split; auto; now right.
  - inversion He; subst; exists e1; split; [reflexivity|].
    right; exists v; split; [now left|assumption].
  - destruct (IH _ _ _ He) as (e0 & -> & [(k' & Hin & Hk')|(v' & Hin & Hv')]);
      exists e0; split; try reflexivity;
      [left; exists k'|right; exists v']; split; auto; now right.
Qed.

Lemma dump_scan_error_described (req : DumpBinlogReq) (w : World) (e : error) :
  errors_described DecodeInt decodePayload ->
  snd (fst (scan_of req w)) = Some e -> Error e <> ""%string.
Proof.
  intros [Hk Hv]; rewrite dump_scan_eq.
  destruct (find_bucket (buckets (boltdb (srv w))) (BinlogNamespace (globals w)))
    as [b|]; cbn [fst snd]; intros He.
  - destruct (scan_dump_error _ _ _ _ _ _ He) as (e0 & -> & [(k & _ & H)|(v & _ & H)]);
      simpl; eauto.
  - inversion He; subst; discriminate.
Qed.

(** The scan reaches the record after [pre] with the closure state that
    [pre] leaves. *)
Lemma dump_scan_reach (req : DumpBinlogReq) (w : World)
  (b pre post : bucket) (k v : bytes) (st1 : DumpBinlogResp * Z) :
  find_bucket (buckets (boltdb (srv w))) (BinlogNamespace (globals w)) = Some b ->
  seek b (EncodeInt [] (BeginCommitTS req)) = (pre ++ (k, v) :: post)%list ->
  run_through (cb (BeginCommitTS req) (lower (window (srv w)))) pre
              (mkResp [] 0 "", Limit req) = Some st1 ->
  scan_of req w =
  let r := scan_pure (cb (BeginCommitTS req) (lower (window (srv w))))
             ((k, v) :: post) st1 in
  (fst r,
   mkWorld (globals w) (srv w)
     (log w ++ EvLoadLower
            :: EvScan (BinlogNamespace (globals w)) (EncodeInt [] (BeginCommitTS req))
            :: map EvVisit (map fst pre ++ snd r))).
Proof.
  intros Hb Hseek Hrun.
  rewrite dump_scan_eq, Hb, Hseek; cbn zeta.
  now rewrite (scan_pure_app _ _ _ _ _ Hrun).
Qed.

Lemma run_through_scan {S : Type}
  (f : bytes -> bytes -> S -> S * (bool * option error)) (rs : bucket) :
  forall s s1, run_through f rs s = Some s1 ->
               fst (scan_pure f rs s) = (s1, None).
Proof.
  induction rs as [|[k v] rs IH]; intros s s1 H; simpl in H.
  - now inversion H.
  - rewrite scan_pure_cons.
    destruct (f k v s) as [s' [[|] [e|]]]; try discriminate.
    cbn [fst]; auto.
Qed.

(** C10: [Errmsg] is not empty exactly when the scan returned an error,
    the decoders' errors carrying a message; in that case [Errmsg] is the
    error's text and the error, traced, is also [DumpBinlog]'s error
    result, and otherwise both are empty.  The scan returns an error when
    the callback reaches a key that [DecodeInt] rejects, as well as when
    it reaches a value that [decodePayload] rejects. *)
Theorem DumpBinlog_errmsg (req : DumpBinlogReq) (w : World) :
  errors_described DecodeInt decodePayload ->
  let serr := snd (fst (scan_of req w)) in
  let resp := fst (fst (dump req w)) in
  let err := snd (fst (dump req w)) in
  (Errmsg resp <> ""%string <-> serr <> None) /\
  (serr <> None <-> err <> None) /\
  (forall e, serr = Some e ->
             Errmsg resp = Error e /\ err = Some (ErrTrace e) /\
             Error (ErrTrace e) = Error e /\ Cause (ErrTrace e) = Cause e) /\
  (serr = None -> Errmsg resp = ""%string /\ err = None) /\
  (forall b pre k v post st1 e,
      find_bucket (buckets (boltdb (srv w))) (BinlogNamespace (globals w)) = Some b ->
      seek b (EncodeInt [] (BeginCommitTS req)) = (pre ++ (k, v) :: post)%list ->
      run_through (cb (BeginCommitTS req) (lower (window (srv w)))) pre
                  (mkResp [] 0 "", Limit req) = Some st1 ->
      0 < snd st1 ->
      DecodeInt k = Err e ->
      serr = Some (ErrTrace e)) /\
  (forall b pre k v post st1 rest cts e,
      find_bucket (buckets (boltdb (srv w))) (BinlogNamespace (globals w)) = Some b ->
      seek b (EncodeInt [] (BeginCommitTS req)) = (pre ++ (k, v) :: post)%list ->
      run_through (cb (BeginCommitTS req) (lower (window (srv w)))) pre
                  (mkResp [] 0 "", Limit req) = Some st1 ->
      0 < snd st1 ->
      DecodeInt k = Ok (rest, cts) ->
      cts <> BeginCommitTS req -> cts < lower (window (srv w)) ->
      decodePayload v = Err e ->
      serr = Some (ErrTrace e)).
Proof.
  intros Hdesc; cbn zeta.
  pose proof (dump_scan_error_described req w) as Hne.
  rewrite DumpBinlog_eq; cbn [fst snd].
  split; [|split; [|split; [|split; [|split]]]].
  - destruct (snd (fst (scan_of req w))) as [e|]; cbn [Errmsg].
    + split; [discriminate|intros _; eauto].
    + rewrite dump_scan_eq.
      destruct (find_bucket _ _); cbn [fst snd];
        match goal with
        | |- context [scan_pure ?f ?rs (?r, ?l)] =>
            destruct (scan_dump_post DecodeInt decodePayload
                        (BeginCommitTS req) (lower (window (srv w))) rs r l)
              as (es & _ & _ & _ & _ & _ & Hmsg & _); rewrite Hmsg
        | _ => idtac
        end; cbn [Errmsg]; split; congruence.
  - destruct (snd (fst (scan_of req w))); simpl; split; congruence.
  - intros e ->; cbn [Errmsg Trace]; auto.
  - intros ->; cbn [Trace]; split; [|reflexivity].
    rewrite dump_scan_eq.
    destruct (find_bucket _ _); cbn [fst snd]; [|reflexivity].
    match goal with
    | |- context [scan_pure ?f ?rs (?r, ?l)] =>
        destruct (scan_dump_post DecodeInt decodePayload
                    (BeginCommitTS req) (lower (window (srv w))) rs r l)
          as (es & _ & _ & _ & _ & _ & Hmsg & _); rewrite Hmsg
    end; reflexivity.
  - intros b pre k v post [r1 l1] e Hb Hseek Hrun Hl Hk.
    rewrite (dump_scan_reach req w b pre post k v _ Hb Hseek Hrun); cbn zeta.
    rewrite scan_pure_cons, (callback_bad_key _ _ _ _ _ _ _ _ e) by auto.
    reflexivity.
  - intros b pre k v post [r1 l1] rest cts e Hb Hseek Hrun Hl Hk Hne1 Hlt Hv.
    rewrite (dump_scan_reach req w b pre post k v _ Hb Hseek Hrun); cbn zeta.
    rewrite scan_pure_cons, (callback_bad_payload _ _ _ _ _ _ _ _ rest cts e) by auto.
    reflexivity.
Qed.

(** C2, as the code has it: when the scan reaches a record whose payload
    does not decode, it stops there, no later record being visited; the
    response holds the payloads and the end timestamp collected over the
    records before it, which are those of entries among these records,
    and the error's text in [Errmsg]; and the error, traced, is returned
    as [DumpBinlog]'s error result besides the response. *)
Theorem DumpBinlog_decode_failure (req : DumpBinlogReq) (w : World)
  (b pre post : bucket) (k v rest : bytes) (cts : Z) (e : error)
  (st1 : DumpBinlogResp * Z) :
  find_bucket (buckets (boltdb (srv w))) (BinlogNamespace (globals w)) = Some b ->
  seek b (EncodeInt [] (BeginCommitTS req)) = (pre ++ (k, v) :: post)%list ->
  run_through (cb (BeginCommitTS req) (lower (window (srv w)))) pre
              (mkResp [] 0 "", Limit req) = Some st1 ->
  0 < snd st1 ->
  DecodeInt k = Ok (rest, cts) ->
  cts <> BeginCommitTS req -> cts < lower (window (srv w)) ->
  decodePayload v = Err e ->
  Error e <> ""%string ->
  let resp := fst (fst (dump req w)) in
  let err := snd (fst (dump req w)) in
  let w' := snd (dump req w) in
  Payloads resp = Payloads (fst st1) /\
  EndCommitTS resp = EndCommitTS (fst st1) /\
  (exists es, Payloads resp = map a_payload es /\
              Forall (decodes DecodeInt decodePayload) es /\
              subseq (map a_record es) pre) /\
  Errmsg resp = Error e /\
  Errmsg resp <> ""%string /\
  err = Some (ErrTrace (ErrTrace e)) /\
  log w' = (log w ++ EvLoadLower
                  :: EvScan (BinlogNamespace (globals w))
                            (EncodeInt [] (BeginCommitTS req))
                  :: map EvVisit (map fst pre ++ [k]))%list.
Proof.
  intros Hb Hseek Hrun Hl Hk Hne Hlt Hv Hmsg; cbn zeta.
  destruct st1 as [r1 l1]; cbn [fst snd] in *.
  rewrite DumpBinlog_eq; cbn zeta.
  rewrite (dump_scan_reach req w b pre post k v _ Hb Hseek Hrun); cbn zeta.
  rewrite scan_pure_cons, (callback_bad_payload _ _ _ _ _ _ _ _ rest cts e) by auto.
  cbn [fst snd Payloads EndCommitTS Errmsg Error Trace log].
  repeat split; auto.
  destruct (scan_dump_post DecodeInt decodePayload (BeginCommitTS req)
              (lower (window (srv w))) pre (mkResp [] 0 "") (Limit req))
    as (es & Hsub & Hdec & _ & Hpl & _).
  rewrite (run_through_scan _ _ _ _ Hrun) in Hpl; cbn [fst Payloads app] in Hpl.
  exists es; auto.
Qed.

(** C4, as the code has it: with [limit <= 0] the response has no
    payload and [EndCommitTS] 0, and no record is decoded; the window's
    lower bound is still read and the scan of the binlog namespace still
    runs, its callback stopping it at the first record it is called on;
    the error result is nil and [Errmsg] empty when the store has the
    namespace. *)
Theorem DumpBinlog_no_limit (req : DumpBinlogReq) (w : World) :
  Limit req <= 0 ->
  let resp := fst (fst (dump req w)) in
  let err := snd (fst (dump req w)) in
  let w' := snd (dump req w) in
  Payloads resp = [] /\
  EndCommitTS resp = 0 /\
  log w' = (log w ++ EvLoadLower
                  :: EvScan (BinlogNamespace (globals w))
                            (EncodeInt [] (BeginCommitTS req))
                  :: map EvVisit
                       (firstn 1 (map fst (seek (binlog_bucket w)
                                                (EncodeInt [] (BeginCommitTS req))))))%list /\
  (find_bucket (buckets (boltdb (srv w))) (BinlogNamespace (globals w)) <> None ->
   err = None /\ Errmsg resp = ""%string).
Proof.
  intros Hl; cbn zeta.
  rewrite DumpBinlog_eq, dump_scan_eq; unfold binlog_bucket; cbn zeta.
  destruct (find_bucket (buckets (boltdb (srv w))) (BinlogNamespace (globals w)))
    as [b|].
  - rewrite scan_limit_reached by exact Hl.
    cbn [fst snd Payloads EndCommitTS Errmsg Trace log]; auto.
  - cbn [fst snd Payloads EndCommitTS Errmsg Trace log seek map firstn].
    repeat split; congruence.
Qed.

End RangeQueryProperties.

(** ** The instance satisfies what the properties assume *)

Module CodecFacts.

Import Codec.

Lemma byte_val_range (b : byte) : 0 <= byte_val b < 256.
Proof.
  unfold byte_val; pose proof (Byte.to_N_bounded b); lia.
Qed.

Lemma byte_val_byte_of (z : Z) : byte_val (byte_of z) = z mod 256.
Proof.
  pose proof (Z.mod_pos_bound z 256 ltac:(lia)) as Hr.
  unfold byte_of, byte_val.
  destruct (Byte.of_N (Z.to_N (z mod 256))) as [b|] eqn:E.
  - apply Byte.to_of_N in E; rewrite E; lia.
  - apply Byte.of_N_None_iff in E; lia.
Qed.

Lemma be_uint_acc (b : bytes) :
  forall acc, be_uint acc b = acc * 256 ^ Z.of_nat (List.length b) + be_uint 0 b.
Proof.
  induction b as [|x b IH]; intros acc; cbn [be_uint List.length].
  - change (Z.of_nat 0) with 0; lia.
  - rewrite IH, (IH (0 * 256 + byte_val x)), Nat2Z.inj_succ, Z.pow_succ_r by lia.
    lia.
Qed.

Lemma be_uint_range (b : bytes) :
  0 <= be_uint 0 b < 256 ^ Z.of_nat (List.length b).
Proof.
  induction b as [|x b IH]; cbn [be_uint List.length].
  - change (Z.of_nat 0) with 0; lia.
  - rewrite be_uint_acc, Nat2Z.inj_succ, Z.pow_succ_r by lia.
    pose proof (byte_val_range x); nia.
Qed.

(** On byte strings of one length, byte order is the order of the
    big-endian values. *)
Lemma bytes_compare_be (a : bytes) :
  forall b, List.length a = List.length b ->
            bytes_compare a b = Z.compare (be_uint 0 a) (be_uint 0 b).
Proof.
  induction a as [|x a IH]; intros [|y b] Hlen; try discriminate.
  - reflexivity.
  - cbn [bytes_compare be_uint].
    injection Hlen as Hlen.
    rewrite (be_uint_acc a), (be_uint_acc b), <- Hlen.
    pose proof (be_uint_range a) as Ha.
    pose proof (be_uint_range b) as Hb; rewrite <- Hlen in Hb.
    pose proof (byte_val_range x); pose proof (byte_val_range y).
    rewrite (IH b Hlen).
    destruct (Z.compare_spec (byte_val x) (byte_val y)) as [E|E|E].
    + rewrite E.
      destruct (Z.compare_spec (be_uint 0 a) (be_uint 0 b));
        symmetry; [apply Z.compare_eq_iff|apply Z.compare_lt_iff|apply Z.compare_gt_iff];
        lia.
    + symmetry; apply Z.compare_lt_iff; nia.
    + symmetry; apply Z.compare_gt_iff; nia.
Qed.

(** A key not below an eight-byte key has its first bytes not below it. *)
Lemma bytes_ltb_firstn (e : bytes) :
  forall k, (List.length e <= List.length k)%nat ->
            bytes_ltb k e = false ->
            bytes_ltb (firstn (List.length e) k) e = false.
Proof.
  unfold bytes_ltb.
  induction e as [|y e IH]; intros k Hlen H; [reflexivity|].
  destruct k as [|x k]; [simpl in Hlen; lia|].
  cbn [List.length firstn bytes_compare] in *.
  destruct (Z.compare (byte_val x) (byte_val y)); auto.
  apply IH; [lia|exact H].
Qed.

Lemma PutUint64_length (u : Z) : List.length (PutUint64 u) = 8%nat.
Proof. reflexivity. Qed.

Lemma Uint64_PutUint64 (u : Z) :
  0 <= u < 2 ^ 64 -> be_uint 0 (PutUint64 u) = u.
Proof.
  intros Hu; unfold PutUint64; cbn [map be_uint].
  rewrite !byte_val_byte_of, !Z.shiftr_div_pow2 by lia.
  change (2 ^ (8 * 7)) with 72057594037927936.
  change (2 ^ (8 * 6)) with 281474976710656.
  change (2 ^ (8 * 5)) with 1099511627776.
  change (2 ^ (8 * 4)) with 4294967296.
  change (2 ^ (8 * 3)) with 16777216.
  change (2 ^ (8 * 2)) with 65536.
  change (2 ^ (8 * 1)) with 256.
  change (2 ^ (8 * 0)) with 1.
  change (2 ^ 64) with 18446744073709551616 in Hu.
  Z.div_mod_to_equations; lia.
Qed.

Lemma lxor_signMask (x : Z) :
  0 <= x < 2 ^ 64 ->
  Z.lxor x signMask = if x <? 2 ^ 63 then x + 2 ^ 63 else x - 2 ^ 63.
Proof.
  intros Hx; unfold signMask.
  assert (Hlow : forall y, 0 <= y < 2 ^ 63 -> Z.lxor y (2 ^ 63) = y + 2 ^ 63).
  { intros y Hy; symmetry; apply Z.add_nocarry_lxor.
    apply Z.bits_inj'; intros n Hn.
    rewrite Z.land_spec, Z.bits_0, Z.pow2_bits_eqb by lia.
    destruct (Z.eqb_spec 63 n) as [<-|Hne]; [|apply andb_false_r].
    rewrite andb_true_r.
    destruct (Z.eq_dec y 0) as [->|Hy0]; [apply Z.bits_0|].
    apply Z.bits_above_log2; [lia|].
    apply Z.log2_lt_pow2; lia. }
  destruct (Z.ltb_spec x (2 ^ 63)) as [Hlt|Hge].
  - apply Hlow; lia.
  - replace x with ((x - 2 ^ 63) + 2 ^ 63) at 1 by lia.
    rewrite <- Hlow by lia.
    rewrite Z.lxor_assoc, Z.lxor_nilpotent, Z.lxor_0_r; lia.
Qed.

Lemma encodeIntToCmpUint_eq (v : Z) :
  in_int64 v -> encodeIntToCmpUint v = v + 2 ^ 63.
Proof.
  intros [Hlo Hhi]; unfold encodeIntToCmpUint, uint64.
  pose proof (Z.mod_pos_bound v (2 ^ 64) ltac:(lia)) as Hm.
  rewrite lxor_signMask by exact Hm.
  destruct (Z_lt_le_dec v 0) as [Hneg|Hpos].
  - replace (v mod 2 ^ 64) with (v + 2 ^ 64)
      by (apply Z.mod_unique with (-1); lia).
    destruct (Z.ltb_spec (v + 2 ^ 64) (2 ^ 63)); lia.
  - rewrite Z.mod_small by lia.
    destruct (Z.ltb_spec v (2 ^ 63)); lia.
Qed.

Lemma decodeCmpUintToInt_eq (u : Z) :
  0 <= u < 2 ^ 64 -> decodeCmpUintToInt u = u - 2 ^ 63.
Proof.
  intros Hu; unfold decodeCmpUintToInt, int64_wrap.
  rewrite lxor_signMask by exact Hu.
  destruct (Z.ltb_spec u (2 ^ 63)).
  - replace (u + 2 ^ 63 + 2 ^ 63) with (u + 1 * 2 ^ 64) by lia.
    rewrite Z.mod_add, Z.mod_small by lia; lia.
  - replace (u - 2 ^ 63 + 2 ^ 63) with u by lia.
    rewrite Z.mod_small by lia; lia.
Qed.

Lemma DecodeInt_EncodeInt (v : Z) :
  in_int64 v -> DecodeInt (EncodeInt [] v) = Ok ([], v).
Proof.
  intros Hv; unfold DecodeInt, EncodeInt, Uint64.
  pose proof Hv as [Hlo Hhi].
  cbn [app]; rewrite PutUint64_length; cbn [Z.of_nat Z.ltb Z.compare Pos.compare
    Pos.compare_cont Pos.of_succ_nat Pos.succ].
  rewrite (firstn_all2 (n := 8)) by (rewrite PutUint64_length; lia).
  pose proof (encodeIntToCmpUint_eq v Hv) as Hu.
  rewrite Uint64_PutUint64, decodeCmpUintToInt_eq by lia.
  rewrite Hu; cbn [skipn PutUint64 map].
  f_equal; f_equal; lia.
Qed.

Lemma DecodeInt_order (start : Z) (k rest : bytes) (cts : Z) :
  in_int64 start ->
  bytes_ltb k (EncodeInt [] start) = false ->
  DecodeInt k = Ok (rest, cts) ->
  start <= cts.
Proof.
  intros Hs Hge Hk; pose proof Hs as [Hlo Hhi].
  unfold DecodeInt in Hk.
  destruct (Z.ltb_spec (Z.of_nat (List.length k)) 8) as [Hshort|Hlong];
    [discriminate|].
  injection Hk as _ Hcts.
  unfold EncodeInt in Hge; cbn [app] in Hge.
  set (u := encodeIntToCmpUint start) in *.
  assert (Hu : u = start + 2 ^ 63) by (apply encodeIntToCmpUint_eq; exact Hs).
  pose proof (bytes_ltb_firstn (PutUint64 u) k) as Hf.
  rewrite PutUint64_length in Hf.
  specialize (Hf ltac:(lia) Hge).
  unfold bytes_ltb in Hf.
  rewrite bytes_compare_be in Hf
    by (rewrite PutUint64_length, length_firstn; lia).
  rewrite Uint64_PutUint64 in Hf by lia.
  pose proof (be_uint_range (firstn 8 k)) as Hr.
  rewrite length_firstn in Hr.
  replace (Nat.min 8 (List.length k)) with 8%nat in Hr by lia.
  change (256 ^ Z.of_nat 8) with (2 ^ 64) in Hr.
  unfold Uint64 in Hcts.
  rewrite decodeCmpUintToInt_eq in Hcts by exact Hr.
  destruct (Z.compare_spec (be_uint 0 (firstn 8 k)) u); try discriminate; lia.
Qed.

Lemma codec_ok_instance : codec_ok EncodeInt DecodeInt.
Proof.
  constructor.
  - exact DecodeInt_EncodeInt.
  - exact DecodeInt_order.
Qed.

Lemma errors_described_instance : errors_described DecodeInt decodePayload.
Proof.
  split.
  - intros k e; unfold DecodeInt.
    destruct (Z.of_nat (List.length k) <? 8); [|discriminate].
    intros H; inversion H; subst; discriminate.
  - intros v e; unfold decodePayload.
    destruct (firstn _ v) as [|x l].
    + intros H; inversion H; subst; discriminate.
    + destruct (negb (byte_val x =? 1)).
      * intros H; inversion H; subst; discriminate.
      * destruct (negb _); [|discriminate].
        intros H; inversion H; subst; discriminate.
Qed.

End CodecFacts.

(** ** The range query on the sample worlds *)

Lemma DumpBinlog_window_bounds_witness :
  (exists es,
      Payloads (fst (fst (Codec.DumpBinlog (mkReq 10 10) (sample_world 1 six_entries 13))))
      = map a_payload es /\
      Forall (decodes Codec.DecodeInt Codec.decodePayload) es /\
      subseq (map a_record es) (binlog_bucket (sample_world 1 six_entries 13)) /\
      Forall (fun a => 10 < a_cts a < 13) es) /\
  fst (Codec.DumpBinlog (mkReq 10 10) (sample_world 1 six_entries 13))
  = (mkResp [payload_of 11; payload_of 12] 12 "", None).
Proof.
  destruct (DumpBinlog_window_bounds Codec.EncodeInt Codec.DecodeInt Codec.decodePayload)
    as [Hgen Hex].
  split.
  - apply (Hgen (mkReq 10 10) (sample_world 1 six_entries 13)).
    + exact CodecFacts.codec_ok_instance.
    + unfold in_int64; simpl; lia.
    + reflexivity.
  - apply (Hex (Codec.encodePayload (payload_of 10)) (Codec.encodePayload (payload_of 11))
               (Codec.encodePayload (payload_of 12)) (Codec.encodePayload (payload_of 13))
               (Codec.encodePayload (payload_of 14)) (Codec.encodePayload (payload_of 15))
               (payload_of 11) (payload_of 12) 0 0).
    + exact CodecFacts.codec_ok_instance.
    + reflexivity.
    + reflexivity.
    + reflexivity.
    + reflexivity.
Defined.

Lemma DumpBinlog_empty_end_witness :
  Payloads (fst (fst (Codec.DumpBinlog (mkReq 15 10) (sample_world 1 six_entries 13)))) = [] /\
  EndCommitTS (fst (fst (Codec.DumpBinlog (mkReq 15 10) (sample_world 1 six_entries 13)))) = 0.
Proof.
  split; [reflexivity|].
  apply (DumpBinlog_empty_end Codec.EncodeInt Codec.DecodeInt Codec.decodePayload).
  reflexivity.
Defined.

(** C3, as stated, fails: a request with [BeginCommitTS] 15 at the last
    stored entry gets no payload, and [EndCommitTS] 0 rather than 15. *)
Lemma DumpBinlog_end_not_begin :
  Payloads (fst (fst (Codec.DumpBinlog (mkReq 15 10) (sample_world 1 six_entries 13)))) = [] /\
  EndCommitTS (fst (fst (Codec.DumpBinlog (mkReq 15 10) (sample_world 1 six_entries 13))))
  <> BeginCommitTS (mkReq 15 10).
Proof.
  split; [reflexivity|].
  vm_compute; discriminate.
Qed.

Lemma DumpBinlog_limit_witness :
  Z.of_nat (List.length (Payloads (fst (fst (Codec.DumpBinlog (mkReq 10 1)
                                             (sample_world 1 six_entries 13)))))) <= 1 /\
  snd (fst (fst (Codec.dump_scan (mkReq 10 1) (sample_world 1 six_entries 13)))) =
  1 - Z.of_nat (List.length (Payloads (fst (fst (Codec.DumpBinlog (mkReq 10 1)
                                                 (sample_world 1 six_entries 13)))))) /\
  0 <= snd (fst (fst (Codec.dump_scan (mkReq 10 1) (sample_world 1 six_entries 13)))) /\
  (forall start end_ k v r,
      dump_callback Codec.DecodeInt Codec.decodePayload start end_ k v (r, 0)
      = ((r, 0), (false, None))) /\
  (forall start end_ rs r,
      scan_pure (dump_callback Codec.DecodeInt Codec.decodePayload start end_) rs (r, 0) =
      (((r, 0), None), firstn 1 (map fst rs))).
Proof.
  apply (DumpBinlog_limit Codec.EncodeInt Codec.DecodeInt Codec.decodePayload
           (mkReq 10 1) (sample_world 1 six_entries 13)).
  - simpl; lia.
  - unfold in_int32; simpl; lia.
Defined.

Lemma DumpBinlog_ordered_witness :
  exists es,
    Payloads (fst (fst (Codec.DumpBinlog (mkReq 10 10) (sample_world 1 six_entries 13))))
    = map a_payload es /\
    Forall (decodes Codec.DecodeInt Codec.decodePayload) es /\
    subseq (map a_record es) (binlog_bucket (sample_world 1 six_entries 13)) /\
    StronglySorted Z.lt (map a_cts es) /\
    EndCommitTS (fst (fst (Codec.DumpBinlog (mkReq 10 10) (sample_world 1 six_entries 13))))
    = last (map a_cts es) 0.
Proof.
  apply (DumpBinlog_ordered Codec.EncodeInt Codec.DecodeInt Codec.decodePayload
           (mkReq 10 10) (sample_world 1 six_entries 13)).
  reflexivity.
Defined.

Lemma DumpBinlog_errmsg_witness :
  let w := bad12_world in
  let req := mkReq 10 10 in
  let serr := snd (fst (Codec.dump_scan req w)) in
  let resp := fst (fst (Codec.DumpBinlog req w)) in
  let err := snd (fst (Codec.DumpBinlog req w)) in
  (Errmsg resp <> ""%string <-> serr <> None) /\
  (serr <> None <-> err <> None) /\
  serr = Some (ErrTrace unsupported_version) /\
  Errmsg resp = "Time.UnmarshalBinary: unsupported version"%string /\
  err = Some (ErrTrace (ErrTrace unsupported_version)).
Proof.
  cbn zeta.
  destruct (DumpBinlog_errmsg Codec.EncodeInt Codec.DecodeInt Codec.decodePayload
              (mkReq 10 10) bad12_world CodecFacts.errors_described_instance)
    as (H1 & H2 & H3 & _).
  split; [exact H1|].
  split; [exact H2|].
  split; [reflexivity|].
  destruct (H3 (ErrTrace unsupported_version) eq_refl) as (H4 & H5 & _).
  split; [exact H4|exact H5].
Defined.

Lemma DumpBinlog_decode_failure_witness :
  let w := bad12_world in
  let req := mkReq 10 10 in
  let resp := fst (fst (Codec.DumpBinlog req w)) in
  let err := snd (fst (Codec.DumpBinlog req w)) in
  let w' := snd (Codec.DumpBinlog req w) in
  Payloads resp = [payload_of 11] /\
  EndCommitTS resp = 11 /\
  (exists es, Payloads resp = map a_payload es /\
              Forall (decodes Codec.DecodeInt Codec.decodePayload) es /\
              subseq (map a_record es)
                     [(key_of 10, Codec.encodePayload (payload_of 10));
                      (key_of 11, Codec.encodePayload (payload_of 11))]) /\
  Errmsg resp = Error unsupported_version /\
  Errmsg resp <> ""%string /\
  err = Some (ErrTrace (ErrTrace unsupported_version)) /\
  log w' = (log w ++ EvLoadLower
                  :: EvScan (BinlogNamespace (globals w)) (key_of 10)
                  :: map EvVisit [key_of 10; key_of 11; key_of 12])%list.
Proof.
  cbn zeta.
  apply (DumpBinlog_decode_failure Codec.EncodeInt Codec.DecodeInt Codec.decodePayload
           (mkReq 10 10) bad12_world
           (binlog_bucket bad12_world)
           [(key_of 10, Codec.encodePayload (payload_of 10));
            (key_of 11, Codec.encodePayload (payload_of 11))]
           [(key_of 13, Codec.encodePayload (payload_of 13));
            (key_of 14, Codec.encodePayload (payload_of 14));
            (key_of 15, Codec.encodePayload (payload_of 15))]
           (key_of 12) bad_value [] 12 unsupported_version
           (mkResp [payload_of 11] 11 "", 9)).
  - reflexivity.
  - reflexivity.
  - reflexivity.
  - simpl; lia.
  - reflexivity.
  - simpl; lia.
  - simpl; lia.
  - reflexivity.
  - discriminate.
Defined.

(** C2, as stated, fails: the scan meets the undecodable payload at
    commitTS 12, and the handler's error result is not nil, so that the
    request is reported as failed. *)
Lemma DumpBinlog_decode_failure_fails_request :
  Codec.decodePayload bad_value = Err unsupported_version /\
  In (EvVisit (key_of 12)) (log (snd (Codec.DumpBinlog (mkReq 10 10) bad12_world))) /\
  ~ request_succeeds (fst (Codec.DumpBinlog (mkReq 10 10) bad12_world)).
Proof.
  split; [reflexivity|].
  split; [vm_compute; tauto|].
  unfold request_succeeds; vm_compute; discriminate.
Qed.

Lemma DumpBinlog_no_limit_witness :
  let w := sample_world 1 six_entries 13 in
  let req := mkReq 10 0 in
  let resp := fst (fst (Codec.DumpBinlog req w)) in
  let err := snd (fst (Codec.DumpBinlog req w)) in
  let w' := snd (Codec.DumpBinlog req w) in
  Payloads resp = [] /\
  EndCommitTS resp = 0 /\
  log w' = [EvLoadLower; EvScan (BinlogNamespace (globals w)) (key_of 10);
            EvVisit (key_of 10)] /\
  err = None /\ Errmsg resp = ""%string.
Proof.
  cbn zeta.
  destruct (DumpBinlog_no_limit Codec.EncodeInt Codec.DecodeInt Codec.decodePayload
              (mkReq 10 0) (sample_world 1 six_entries 13))
    as (H1 & H2 & H3 & H4).
  - simpl; lia.
  - split; [exact H1|].
    split; [exact H2|].
    split; [exact H3|].
    apply H4; discriminate.
Defined.

(** C4, as stated, fails: with limit 0 the call still scans the binlog
    namespace and is handed its first record. *)
Lemma DumpBinlog_no_limit_scans :
  Limit (mkReq 10 0) <= 0 /\
  no_scan (log (sample_world 1 six_entries 13)) = true /\
  no_scan (log (snd (Codec.DumpBinlog (mkReq 10 0) (sample_world 1 six_entries 13)))) = false.
Proof.
  split; [simpl; lia|].
  split; reflexivity.
Qed.

(** ** Shutdown *)

Lemma live_app (gl1 gl2 : list goroutine) : live (gl1 ++ gl2) = live gl1 + live gl2.
Proof.
  unfold live; rewrite filter_app, length_app; lia.
Qed.

Lemma exit_live (gl : list goroutine) :
  forall i gl', exit_goroutine gl i = Some gl' ->
                live gl' = live gl - 1 /\ 0 < live gl.
Proof.
  induction gl as [|g gl IH]; intros i gl' H; [discriminate|].
  destruct i as [|i]; cbn [exit_goroutine] in H.
  - destruct (running g) eqn:Er; [|discriminate].
    inversion H; subst; unfold live; cbn [filter running List.length].
    rewrite Er; cbn [List.length]; lia.
  - destruct (exit_goroutine gl i) as [gl''|] eqn:E; [|discriminate].
    inversion H; subst.
    destruct (IH _ _ E) as [H1 H2].
    unfold live in *; cbn [filter].
    destruct (running g); cbn [List.length]; lia.
Qed.

Lemma live_zero (gl : list goroutine) :
  live gl = 0 -> Forall (fun g => running g = false) gl.
Proof.
  unfold live; induction gl as [|g gl IH]; intros H; constructor;
    cbn [filter] in H; destruct (running g); cbn [List.length] in H;
    try reflexivity; try lia; apply IH; lia.
Qed.

Lemma step_inv (t : turn) (sys sys' : System) :
  Close_inv sys -> step t sys = Some sys' -> Close_inv sys'.
Proof.
  unfold Close_inv; cbn zeta.
  intros (Hwg & Hlog & Hpc & Hcl & Hctx & Hgs & Hw) Hstep.
  destruct t as [i|]; cbn [step] in Hstep.
  - destruct (exit_goroutine (goroutines sys) i) as [gl|] eqn:E; [|discriminate].
    inversion Hstep; subst; clear Hstep.
    destruct (exit_live _ _ _ E) as [H1 H2].
    cbn [world goroutines close_pc srv log set_wg wg boltdb ctx gs].
    repeat split; auto; try lia.
  - destruct sys as [w gl pc]; cbn [world goroutines close_pc] in *.
    destruct pc as [|[|[|[|pc]]]]; cbn [Close_step] in Hstep;
      [| |unfold Wait_ready in Hstep;
          destruct (Z.eqb_spec (wg (srv w)) 0) as [Hz|Hnz]; [|discriminate]| |discriminate];
      inversion Hstep; subst; clear Hstep;
      unfold GracefulStop, cancel, Wait, boltdb_Close, bind, emit, get_server, put_server;
      cbn [world goroutines close_pc srv log set_gs set_ctx set_boltdb wg boltdb ctx gs
           fst snd globals firstn Close_events Nat.leb closed buckets] in *;
      rewrite Hlog; repeat split; auto; try lia.
Qed.

(** Without background goroutines, four turns of [Close] are [Close]. *)
Lemma Close_turns (w : World) :
  wg (srv w) = 0 ->
  world (run [TurnClose; TurnClose; TurnClose; TurnClose] (mkSystem w [] 0)) =
  snd (Close w).
Proof.
  intros Hwg.
  unfold Close, run, step, Close_step, Wait_ready, GracefulStop, cancel, Wait,
    boltdb_Close, bind, emit, get_server, put_server.
  cbn [world goroutines close_pc srv log set_gs set_ctx set_boltdb wg fst snd globals].
  now rewrite Hwg.
Qed.

Lemma run_inv (ts : list turn) :
  forall sys, Close_inv sys -> Close_inv (run ts sys).
Proof.
  induction ts as [|t ts IH]; intros sys Hinv; cbn [run]; [exact Hinv|].
  destruct (step t sys) as [sys'|] eqn:E; apply IH; [|exact Hinv].
  eapply step_inv; eauto.
Qed.

Lemma Start_inv (url_Parse : string -> result string)
  (net_Listen : string -> option error) (g : Globals) (s : Server) :
  wg s = 0 -> closed (boltdb s) = false -> ctx s = false ->
  Close_inv (snd (Start url_Parse net_Listen (fresh g s))).
Proof.
  intros Hwg Hcl Hctx.
  unfold Close_inv, Start, StartMetrics, StartPublish, StartCollect, spawn, fresh.
  cbn [world goroutines close_pc srv log set_wg set_gs wg boltdb ctx gs globals metrics
       tcpAddr app].
  destruct (metrics s);
    cbn [world goroutines close_pc srv log set_wg set_gs wg boltdb ctx gs globals
         metrics tcpAddr app];
    destruct (url_Parse (tcpAddr s)) as [host|e];
    try destruct (net_Listen host);
    cbn [world goroutines close_pc srv log set_wg set_gs wg boltdb ctx gs globals
         metrics app firstn Nat.leb fst snd];
    rewrite Hwg; unfold live; cbn [filter running List.length];
    repeat split; auto; try lia.
Qed.

(** C7: in every schedule of the goroutines and of [Close], started
    after [Start] on a server as [NewServer] returns it, the calls of
    [Close] occur in the order stop the gRPC server, cancel, wait, close the
    store; once the wait has returned, the cancellation is raised, the
    wait group is at zero and every background goroutine has returned,
    and so it is whenever the store is closed. *)
Theorem Close_order (url_Parse : string -> result string)
  (net_Listen : string -> option error) (g : Globals) (s : Server) (ts : list turn) :
  wg s = 0 -> closed (boltdb s) = false -> ctx s = false ->
  let sys := run ts (snd (Start url_Parse net_Listen (fresh g s))) in
  let s' := srv (world sys) in
  prefixb (log (world sys)) Close_events = true /\
  (closed (boltdb s') = true <-> In EvStoreClose (log (world sys))) /\
  (closed (boltdb s') = true ->
   log (world sys) = Close_events /\ ctx s' = true /\ gs s' = GrpcStopped /\
   wg s' = 0 /\ Forall (fun g => running g = false) (goroutines sys)) /\
  (In EvWait (log (world sys)) ->
   ctx s' = true /\ gs s' = GrpcStopped /\
   wg s' = 0 /\ Forall (fun g => running g = false) (goroutines sys)).
Proof.
  intros Hwg Hcl Hctx; cbn zeta.
  pose proof (run_inv ts _ (Start_inv url_Parse net_Listen g s Hwg Hcl Hctx)) as Hinv.
  set (sys := run ts (snd (Start url_Parse net_Listen (fresh g s)))) in *.
  unfold Close_inv in Hinv; cbn zeta in Hinv.
  destruct Hinv as (Hw & Hlog & Hpc & Hc & Hx & Hgs & Hz).
  rewrite Hlog, Hc, Hx.
  destruct (close_pc sys) as [|[|[|[|[|pc]]]]]; try lia;
    cbn [firstn Close_events Nat.leb prefixb In] in *.
  all: try (assert (Hwg0 : wg (srv (world sys)) = 0) by (apply Hz; lia);
            assert (Hall : Forall (fun g => running g = false) (goroutines sys))
              by (apply live_zero; lia)).
  all: repeat split; intros;
    repeat match goal with
           | H : _ \/ _ |- _ => destruct H
           | H : False |- _ => destruct H
           end;
    try discriminate; auto; try tauto; try (apply Hgs; lia).
Qed.

Lemma Close_order_witness :
  let sys := run sample_schedule
                 (snd (Start (fun a => Ok a) (fun _ => None)
                             (fresh (mkGlobals [] [] []) sample_server))) in
  let s' := srv (world sys) in
  prefixb (log (world sys)) Close_events = true /\
  (closed (boltdb s') = true <-> In EvStoreClose (log (world sys))) /\
  (closed (boltdb s') = true ->
   log (world sys) = Close_events /\ ctx s' = true /\ gs s' = GrpcStopped /\
   wg s' = 0 /\ Forall (fun g => running g = false) (goroutines sys)) /\
  (In EvWait (log (world sys)) ->
   ctx s' = true /\ gs s' = GrpcStopped /\
   wg s' = 0 /\ Forall (fun g => running g = false) (goroutines sys)) /\
  closed (boltdb s') = true.
Proof.
  cbn zeta.
  destruct (Close_order (fun a => Ok a) (fun _ => None)
              (mkGlobals [] [] []) sample_server sample_schedule
              eq_refl eq_refl eq_refl) as (H1 & H2 & H3 & H4).
  repeat split; try assumption; try apply H2; try apply H3; try apply H4;
    try reflexivity; vm_compute; tauto.
Defined.

(** ** Namespaces *)

Lemma namespaces_distinct (cid : Z) :
  bytes_of_string (Sprintf_d "meta_" cid) <> bytes_of_string (Sprintf_d "binlog_" cid) /\
  bytes_of_string (Sprintf_d "meta_" cid) <> bytes_of_string (Sprintf_d "savepoint_" cid) /\
  bytes_of_string (Sprintf_d "binlog_" cid) <> bytes_of_string (Sprintf_d "savepoint_" cid).
Proof.
  unfold bytes_of_string, Sprintf_d.
  cbn [String.append list_byte_of_string].
  repeat split; intros H; injection H as H _; revert H; vm_compute; discriminate.
Qed.

Section ConstructionProperties.

Variable MkdirAll : string -> option error.
Variable Join : string -> string -> string.
Variable NewBoltStore : string -> list bytes -> result Store.
Variable NewDepositWindow : Store -> result DepositWindow.
Variable NewCollector : Config -> Store -> DepositWindow -> option error.

Lemma NewServer_globals (cfg : Config) (g : Globals) :
  snd (NewServer MkdirAll Join NewBoltStore NewDepositWindow NewCollector cfg g) =
  mkGlobals (bytes_of_string (Sprintf_d "meta_" (ClusterID cfg)))
            (bytes_of_string (Sprintf_d "binlog_" (ClusterID cfg)))
            (bytes_of_string (Sprintf_d "savepoint_" (ClusterID cfg))).
Proof.
  unfold NewServer; cbn [WindowNamespace BinlogNamespace SavePointNamespace].
  destruct (MkdirAll (DataDir cfg)); [reflexivity|].
  destruct (NewBoltStore _ _) as [s|]; [|reflexivity].
  destruct (NewDepositWindow s) as [win|]; [|reflexivity].
  destruct (NewCollector cfg s win); reflexivity.
Qed.

End ConstructionProperties.

(** C8: whatever [NewServer]'s collaborators answer and whatever the
    namespace variables held before, after [NewServer] the window, binlog
    and savepoint namespaces are the bytes of "meta_", "binlog_" and
    "savepoint_" followed by the decimal ClusterID: three different byte
    strings, and the same for any two configurations with one ClusterID. *)
Theorem NewServer_namespaces
  (MkdirAll : string -> option error) (Join : string -> string -> string)
  (NewBoltStore : string -> list bytes -> result Store)
  (NewDepositWindow : Store -> result DepositWindow)
  (NewCollector : Config -> Store -> DepositWindow -> option error)
  (cfg : Config) (g : Globals) :
  let g' := snd (NewServer MkdirAll Join NewBoltStore NewDepositWindow NewCollector cfg g) in
  WindowNamespace g' <> BinlogNamespace g' /\
  WindowNamespace g' <> SavePointNamespace g' /\
  BinlogNamespace g' <> SavePointNamespace g' /\
  (forall MkdirAll2 Join2 NewBoltStore2 NewDepositWindow2 NewCollector2 cfg2 g2,
      ClusterID cfg2 = ClusterID cfg ->
      snd (NewServer MkdirAll2 Join2 NewBoltStore2 NewDepositWindow2 NewCollector2 cfg2 g2)
      = g').
Proof.
  cbn zeta; rewrite NewServer_globals.
  cbn [WindowNamespace BinlogNamespace SavePointNamespace].
  destruct (namespaces_distinct (ClusterID cfg)) as (H1 & H2 & H3).
  repeat split; auto.
  intros; rewrite NewServer_globals; congruence.
Qed.

Lemma NewServer_namespaces_witness :
  let g' := snd (sample_NewServer (sample_config 7) (mkGlobals [] [] [])) in
  g' = mkGlobals (bytes_of_string "meta_7") (bytes_of_string "binlog_7")
                 (bytes_of_string "savepoint_7") /\
  WindowNamespace g' <> BinlogNamespace g' /\
  WindowNamespace g' <> SavePointNamespace g' /\
  BinlogNamespace g' <> SavePointNamespace g' /\
  snd (NewServer (fun _ => Some (ErrNew "mkdir: permission denied"))
                 (fun d f => f) (fun _ _ => Err (ErrNew "timeout"))
                 (fun _ => Err (ErrNew "no window")) (fun _ _ _ => None)
                 (mkConfig 7 "elsewhere" "" "127.0.0.1:9091" 15)
                 (mkGlobals [x00] [] []))
  = g'.
Proof.
  cbn zeta; unfold sample_NewServer.
  destruct (NewServer_namespaces (fun _ => None)
              (fun d f => (d ++ "/" ++ f)%string)
              (fun _ nss => Ok (empty_store nss))
              (fun _ => Ok (mkWindow 0 0))
              (fun _ _ _ => None)
              (sample_config 7) (mkGlobals [] [] [])) as (H1 & H2 & H3 & H4).
  split; [reflexivity|].
  split; [exact H1|].
  split; [exact H2|].
  split; [exact H3|].
  apply H4; reflexivity.
Defined.

(** * Further properties *)

(** ** The range query on a well-formed bucket *)

Section RangeQueryExact.

Variable EncodeInt : bytes -> Z -> bytes.
Variable DecodeInt : bytes -> result (bytes * Z).
Variable decodePayload : bytes -> result (bytes * Z).

Hypothesis Hcodec : codec_ok EncodeInt DecodeInt.

Local Abbreviation dump := (DumpBinlog EncodeInt DecodeInt decodePayload).
Local Abbreviation cb := (dump_callback DecodeInt decodePayload).

(** Byte order of encoded keys is numeric order. *)
Lemma EncodeInt_ltb (a b : Z) :
  in_int64 a -> in_int64 b ->
  bytes_ltb (EncodeInt [] a) (EncodeInt [] b) = (a <? b).
Proof.
  intros Ha Hb.
  assert (Hlt : forall x y, in_int64 x -> in_int64 y -> x < y ->
                            bytes_ltb (EncodeInt [] x) (EncodeInt [] y) = true).
  { intros x y Hx Hy Hxy.
    destruct (bytes_ltb (EncodeInt [] x) (EncodeInt [] y)) eqn:E; [reflexivity|].
    pose proof (codec_order _ _ Hcodec y (EncodeInt [] x) [] x Hy E
                  (codec_roundtrip _ _ Hcodec x Hx)); lia. }
  destruct (Z.ltb_spec a b) as [Hab|Hba]; [apply Hlt; assumption|].
  destruct (Z.eq_dec a b) as [->|Hne]; [apply bytes_ltb_irrefl|].
  pose proof (Hlt b a Hb Ha ltac:(lia)) as H.
  unfold bytes_ltb in *.
  rewrite (bytes_compare_antisym (EncodeInt [] b) (EncodeInt [] a)).
  destruct (bytes_compare (EncodeInt [] b) (EncodeInt [] a)); try discriminate.
  reflexivity.
Qed.

Lemma sorted_head_lt (e : entry) (E : list entry) :
  StronglySorted Z.lt (map e_cts (e :: E)) ->
  StronglySorted Z.lt (map e_cts E) /\ Forall (fun e' => e_cts e < e_cts e') E.
Proof.
  cbn [map]; intros H; inversion H as [|x l Hs Hall]; subst.
  split; [exact Hs|]; now rewrite Forall_map in Hall.
Qed.

(** The cursor on a bucket of entries stands at the first entry whose
    commitTS is not below the start. *)
Lemma seek_stored (start : Z) (E : list entry) :
  in_int64 start ->
  StronglySorted Z.lt (map e_cts E) ->
  Forall (fun e => in_int64 (e_cts e)) E ->
  seek (stored EncodeInt E) (EncodeInt [] start) =
  stored EncodeInt (filter (fun e => start <=? e_cts e) E).
Proof.
  intros Hs; induction E as [|e E IH]; intros Hsort Hint; [reflexivity|].
  destruct (sorted_head_lt _ _ Hsort) as [Hsort' Hhead].
  inversion Hint as [|e' E' He HE]; subst.
  cbn [stored map seek filter].
  rewrite EncodeInt_ltb by assumption.
  destruct (Z.ltb_spec (e_cts e) start) as [Hlt|Hge];
    destruct (Z.leb_spec start (e_cts e)) as [Hle|Hgt]; try lia.
  - apply IH; assumption.
  - cbn [map]; f_equal.
    replace (filter (fun e0 => start <=? e_cts e0) E) with E; [reflexivity|].
    clear IH Hsort Hsort' Hint HE.
    induction E as [|e1 E IH]; [reflexivity|].
    inversion Hhead; subst; cbn [filter].
    destruct (Z.leb_spec start (e_cts e1)); [|lia].
    f_equal; apply IH; assumption.
Qed.

(** The scan's loop over a bucket of entries, none below the start:
    it appends the entries in range, at most [limit], and ends without
    error. *)
Lemma scan_stored (start end_ : Z) (E : list entry) :
  well_stored decodePayload end_ E ->
  Forall (fun e => start <= e_cts e) E ->
  forall r0 limit,
    0 <= limit < 2 ^ 31 ->
    exists limit',
      fst (scan_pure (cb start end_) (stored EncodeInt E) (r0, limit)) =
      ((mkResp (Payloads r0 ++ map e_payload (range_spec start end_ limit E))
               (last (map e_cts (range_spec start end_ limit E)) (EndCommitTS r0))
               (Errmsg r0),
        limit'), None).
Proof.
  unfold well_stored, range_spec.
  induction E as [|e E IH]; intros (Hsort & Hint & Hdec) Hge r0 limit Hl.
  - exists limit; cbn [stored map scan_pure fst filter].
    rewrite firstn_nil; cbn [map last]; rewrite app_nil_r; now destruct r0.
  - destruct (sorted_head_lt _ _ Hsort) as [Hsort' Hhead].
    inversion Hint as [|e1 E1 He HE]; subst.
    inversion Hdec as [|e2 E2 Hde HdE]; subst.
    inversion Hge as [|e3 E3 Hse HsE]; subst.
    cbn [stored map]; rewrite scan_pure_cons.
    fold (stored EncodeInt E).
    pose proof (codec_roundtrip _ _ Hcodec _ He) as Hrt.
    destruct (Z.eq_dec limit 0) as [->|Hl0].
    { rewrite callback_limit by lia; cbn [fst Z.to_nat firstn map last].
      exists 0; rewrite app_nil_r; now destruct r0. }
    cbn [filter].
    destruct (Z.eq_dec (e_cts e) start) as [Heq|Hne].
    + rewrite (callback_skip _ _ _ _ _ _ _ _ []) by (rewrite ?Heq in *; auto; lia).
      cbn [fst].
      replace (in_range start end_ e) with false
        by (symmetry; apply andb_false_iff; left; apply Z.ltb_ge; lia).
      apply IH; auto.
    + destruct (Z_lt_le_dec (e_cts e) end_) as [Hlt|Hge'].
      * destruct (Hde Hlt) as [age Hv].
        rewrite (callback_append _ _ _ _ _ _ _ _ [] (e_cts e) (e_payload e) age)
          by (auto; lia).
        cbn [fst].
        replace (in_range start end_ e) with true
          by (symmetry; apply andb_true_iff; split; apply Z.ltb_lt; lia).
        rewrite int32_wrap_small by lia.
        destruct (IH (conj Hsort' (conj HE HdE)) HsE
                     (mkResp (Payloads r0 ++ [e_payload e]) (e_cts e) (Errmsg r0))
                     (limit - 1) ltac:(lia)) as [limit' Hscan].
        exists limit'; rewrite Hscan; cbn [Payloads EndCommitTS Errmsg].
        replace (Z.to_nat limit) with (S (Z.to_nat (limit - 1))) by lia.
        cbn [firstn map]; rewrite <- app_assoc, last_cons_default; reflexivity.
      * rewrite (callback_unsafe _ _ _ _ _ _ _ _ [] (e_cts e)) by (auto; lia).
        cbn [fst].
        replace (in_range start end_ e) with false
          by (symmetry; apply andb_false_iff; right; apply Z.ltb_ge; lia).
        replace (filter (in_range start end_) E) with (@nil entry).
        { rewrite firstn_nil; cbn [map last]; rewrite app_nil_r.
          exists limit; now destruct r0. }
        clear - Hhead Hge'.
        induction E as [|e1 E IH]; [reflexivity|].
        inversion Hhead; subst; cbn [filter].
        replace (in_range start end_ e1) with false
          by (symmetry; apply andb_false_iff; right; apply Z.ltb_ge; lia).
        apply IH; assumption.
Qed.

Lemma filter_in_range_from (start end_ : Z) (E : list entry) :
  filter (in_range start end_) (filter (fun e => start <=? e_cts e) E) =
  filter (in_range start end_) E.
Proof.
  induction E as [|e E IH]; [reflexivity|]; cbn [filter].
  destruct (Z.leb_spec start (e_cts e)); cbn [filter]; rewrite IH; [reflexivity|].
  unfold in_range.
  replace (start <? e_cts e) with false by (symmetry; apply Z.ltb_ge; lia).
  reflexivity.
Qed.

Lemma well_stored_filter (end_ : Z) (q : entry -> bool) (E : list entry) :
  well_stored decodePayload end_ E -> well_stored decodePayload end_ (filter q E).
Proof.
  unfold well_stored; induction E as [|e E IH]; intros (Hsort & Hint & Hdec);
    [cbn; auto|].
  destruct (sorted_head_lt _ _ Hsort) as [Hsort' Hhead].
  inversion Hint; inversion Hdec; subst.
  destruct (IH (conj Hsort' (conj H2 H6))) as (IH1 & IH2 & IH3).
  cbn [filter]; destruct (q e); [|auto].
  repeat split; try (constructor; assumption).
  cbn [map]; constructor; [exact IH1|].
  rewrite Forall_map, Forall_forall in *.
  intros x Hx; apply filter_In in Hx; apply Hhead; tauto.
Qed.

Lemma dump_exact (req : DumpBinlogReq) (w : World) (E : list entry) :
  find_bucket (buckets (boltdb (srv w))) (BinlogNamespace (globals w)) =
    Some (stored EncodeInt E) ->
  well_stored decodePayload (lower (window (srv w))) E ->
  in_int64 (BeginCommitTS req) ->
  in_int32 (Limit req) ->
  fst (dump req w) =
  (response_of (range_spec (BeginCommitTS req) (lower (window (srv w))) (Limit req) E),
   None).
Proof.
  intros Hb Hws Hstart [Hlo Hhi].
  pose proof Hws as (Hsort & Hint & _).
  rewrite DumpBinlog_eq, dump_scan_eq, Hb; cbn zeta.
  rewrite seek_stored by assumption.
  destruct (Z_le_gt_dec (Limit req) 0) as [Hle|Hgt].
  - rewrite scan_limit_reached by exact Hle.
    cbn [fst snd Trace]; unfold response_of, range_spec.
    replace (Z.to_nat (Limit req)) with 0%nat by lia; reflexivity.
  - destruct (scan_stored (BeginCommitTS req) (lower (window (srv w)))
                (filter (fun e => BeginCommitTS req <=? e_cts e) E)
                (well_stored_filter _ _ _ Hws)
                ltac:(rewrite Forall_forall; intros x Hx; apply filter_In in Hx;
                      destruct Hx as [_ Hx]; apply Z.leb_le in Hx; exact Hx)
                (mkResp [] 0 "") (Limit req) ltac:(lia)) as [limit' Hscan].
    rewrite Hscan; cbn [fst snd Trace Payloads EndCommitTS Errmsg app].
    unfold response_of, range_spec; rewrite filter_in_range_from; reflexivity.
Qed.

(** X1: on a well-formed bucket the range query returns exactly the
    entries after [BeginCommitTS] and below the window's lower bound, in
    commitTS order, at most [Limit] of them: none is left out, none is
    added, [EndCommitTS] is the commitTS of the last one, and there is no
    error. *)
Theorem DumpBinlog_exact (req : DumpBinlogReq) (w : World) (E : list entry) :
  find_bucket (buckets (boltdb (srv w))) (BinlogNamespace (globals w)) =
    Some (stored EncodeInt E) ->
  well_stored decodePayload (lower (window (srv w))) E ->
  in_int64 (BeginCommitTS req) ->
  in_int32 (Limit req) ->
  fst (dump req w) =
  (response_of (range_spec (BeginCommitTS req) (lower (window (srv w))) (Limit req) E),
   None).
Proof. apply dump_exact. Qed.

End RangeQueryExact.

(** ** Reading on from [EndCommitTS] *)

Lemma firstn_plus {A : Type} (n m : nat) (l : list A) :
  firstn (n + m) l = (firstn n l ++ firstn m (skipn n l))%list.
Proof.
  revert l; induction n as [|n IH]; intros l; [reflexivity|].
  destruct l as [|x l]; cbn [Nat.add firstn skipn app].
  - now rewrite firstn_nil.
  - now rewrite IH.
Qed.

Lemma firstn_In {A : Type} (n : nat) (l : list A) (x : A) :
  In x (firstn n l) -> In x l.
Proof.
  intros H; rewrite <- (firstn_skipn n l); apply in_or_app; now left.
Qed.

Lemma last_in {A : Type} (l : list A) (d : A) : l <> [] -> In (last l d) l.
Proof.
  induction l as [|x l IH]; intros H; [contradiction|].
  destruct l as [|y l]; [now left|].
  right; apply IH; discriminate.
Qed.

(** In a strictly increasing list, the entries above the last of the
    first [n] are the entries after the first [n]. *)
Lemma filter_above_last (F : list entry) :
  forall n d,
    StronglySorted Z.lt (map e_cts F) ->
    (0 < n)%nat -> F <> [] ->
    filter (fun e => last (map e_cts (firstn n F)) d <? e_cts e) F = skipn n F.
Proof.
  induction F as [|e F IH]; intros n d Hsort Hn Hne; [contradiction|].
  cbn [map] in Hsort; inversion Hsort as [|x l Hs Hall]; subst.
  rewrite Forall_map in Hall.
  destruct n as [|n]; [lia|].
  cbn [firstn skipn map]; rewrite last_cons_default.
  assert (Hkeep : forall c, c <= e_cts e ->
                            filter (fun e0 => c <? e_cts e0) F = F).
  { intros c Hc; clear - Hall Hc.
    induction F as [|e1 F IH]; [reflexivity|].
    inversion Hall; subst; cbn [filter].
    destruct (Z.ltb_spec c (e_cts e1)); [|lia].
    f_equal; apply IH; assumption. }
  destruct n as [|n].
  - cbn [firstn map last filter].
    rewrite Z.ltb_irrefl, (Hkeep (e_cts e)) by lia; reflexivity.
  - destruct F as [|e1 F].
    + cbn [firstn map last filter skipn]; rewrite Z.ltb_irrefl; now destruct n.
    + assert (Hin : In (last (map e_cts (firstn (S n) (e1 :: F))) (e_cts e))
                       (map e_cts (firstn (S n) (e1 :: F))))
        by (apply last_in; discriminate).
      apply in_map_iff in Hin; destruct Hin as (x & Hx & Hin).
      apply firstn_In in Hin.
      rewrite Forall_forall in Hall; specialize (Hall x Hin).
      cbn [filter].
      destruct (Z.ltb_spec (last (map e_cts (firstn (S n) (e1 :: F))) (e_cts e))
                           (e_cts e)); [lia|].
      apply IH; [exact Hs|lia|discriminate].
Qed.

Lemma filter_in_range_above (start c end_ : Z) (E : list entry) :
  start <= c ->
  filter (in_range c end_) E =
  filter (fun e => c <? e_cts e) (filter (in_range start end_) E).
Proof.
  intros Hc; induction E as [|e E IH]; [reflexivity|]; cbn [filter].
  destruct (in_range c end_ e) eqn:E1; destruct (in_range start end_ e) eqn:E2;
    cbn [filter]; unfold in_range in E1, E2;
    rewrite ?andb_true_iff, ?andb_false_iff, ?Z.ltb_lt, ?Z.ltb_ge in E1, E2;
    try destruct (Z.ltb_spec c (e_cts e)); rewrite ?IH; try reflexivity; lia.
Qed.

Section RangeQueryResume.

Variable EncodeInt : bytes -> Z -> bytes.
Variable DecodeInt : bytes -> result (bytes * Z).
Variable decodePayload : bytes -> result (bytes * Z).

Local Abbreviation dump := (DumpBinlog EncodeInt DecodeInt decodePayload).

(** A call leaves the package variables and the server as they were. *)
Lemma DumpBinlog_world (req : DumpBinlogReq) (w : World) :
  globals (snd (dump req w)) = globals w /\ srv (snd (dump req w)) = srv w.
Proof.
  destruct (DumpBinlog_fields EncodeInt DecodeInt decodePayload req w) as (_ & _ & ->).
  rewrite dump_scan_eq.
  destruct (find_bucket _ _); cbn [snd globals srv]; auto.
Qed.

(** The response depends on the package variables and on the server,
    not on what was called before. *)
Lemma DumpBinlog_same (req : DumpBinlogReq) (w1 w2 : World) :
  globals w1 = globals w2 -> srv w1 = srv w2 ->
  fst (dump req w1) = fst (dump req w2).
Proof.
  intros Hg Hs; rewrite !DumpBinlog_eq, !dump_scan_eq, Hg, Hs.
  destruct (find_bucket _ _); reflexivity.
Qed.

(** X2: on a well-formed bucket, a query for [l1] entries that
    returns some, followed by a query for [l2] entries from the
    [EndCommitTS] of the first response, returns together what one query
    for [l1 + l2] entries returns. *)
Theorem DumpBinlog_resume (begin l1 l2 : Z) (w : World) (E : list entry) :
  codec_ok EncodeInt DecodeInt ->
  find_bucket (buckets (boltdb (srv w))) (BinlogNamespace (globals w)) =
    Some (stored EncodeInt E) ->
  well_stored decodePayload (lower (window (srv w))) E ->
  in_int64 begin ->
  0 < l1 -> 0 <= l2 -> l1 + l2 < 2 ^ 31 ->
  let r1 := fst (fst (dump (mkReq begin l1) w)) in
  let w1 := snd (dump (mkReq begin l1) w) in
  let r2 := fst (fst (dump (mkReq (EndCommitTS r1) l2) w1)) in
  Payloads r1 <> [] ->
  (Payloads r1 ++ Payloads r2)%list =
  Payloads (fst (fst (dump (mkReq begin (l1 + l2)) w))).
Proof.
  intros Hcodec Hb Hws Hbegin Hl1 Hl2 Hsum; cbn zeta.
  destruct (DumpBinlog_world (mkReq begin l1) w) as [Hg Hs].
  rewrite (DumpBinlog_same _ _ w Hg Hs).
  set (lo := lower (window (srv w))) in *.
  set (F := filter (in_range begin lo) E).
  pose proof (well_stored_filter decodePayload lo (in_range begin lo) E Hws)
    as (HsortF & HintF & _); fold F in HsortF, HintF.
  rewrite (dump_exact EncodeInt DecodeInt decodePayload Hcodec
             (mkReq begin l1) w E Hb Hws Hbegin)
    by (unfold in_int32; cbn [Limit]; lia).
  rewrite (dump_exact EncodeInt DecodeInt decodePayload Hcodec
             (mkReq begin (l1 + l2)) w E Hb Hws Hbegin)
    by (unfold in_int32; cbn [Limit]; lia).
  cbn [fst BeginCommitTS Limit]; fold lo; unfold range_spec; fold F.
  unfold response_of at 1 3 4; cbn [Payloads EndCommitTS].
  intros Hne.
  assert (HF : F <> []) by (intros HF; rewrite HF, firstn_nil in Hne; apply Hne; reflexivity).
  set (c := last (map e_cts (firstn (Z.to_nat l1) F)) 0).
  assert (Hc : In c (map e_cts F)).
  { assert (Hin : In c (map e_cts (firstn (Z.to_nat l1) F))).
    { apply last_in; intros H0; apply Hne; apply map_eq_nil in H0.
      rewrite H0; reflexivity. }
    apply in_map_iff in Hin; destruct Hin as (x & Hx & Hin).
    apply firstn_In in Hin; apply in_map_iff; eauto. }
  apply in_map_iff in Hc; destruct Hc as (x & Hx & HxF).
  assert (Hcint : in_int64 c)
    by (rewrite <- Hx; rewrite Forall_forall in HintF; apply HintF; exact HxF).
  assert (Hcge : begin <= c).
  { unfold F in HxF; apply filter_In in HxF; destruct HxF as [_ Hr].
    unfold in_range in Hr; apply andb_prop in Hr; destruct Hr as [Hr _].
    apply Z.ltb_lt in Hr; lia. }
  rewrite (dump_exact EncodeInt DecodeInt decodePayload Hcodec
             (mkReq c l2) w E Hb Hws Hcint)
    by (unfold in_int32; cbn [Limit]; lia).
  cbn [fst BeginCommitTS Limit]; fold lo; unfold range_spec, response_of.
  cbn [Payloads].
  rewrite (filter_in_range_above begin c lo E Hcge); fold F.
  unfold c; rewrite filter_above_last by (auto; lia).
  rewrite <- map_app, Z2Nat.inj_add, firstn_plus by lia; reflexivity.
Qed.

End RangeQueryResume.

(** ** Limits, windows and repeated queries *)

Section RangeQueryMore.

Variable EncodeInt : bytes -> Z -> bytes.
Variable DecodeInt : bytes -> result (bytes * Z).
Variable decodePayload : bytes -> result (bytes * Z).

Local Abbreviation dump := (DumpBinlog EncodeInt DecodeInt decodePayload).
Local Abbreviation scan_of := (dump_scan EncodeInt DecodeInt decodePayload).
Local Abbreviation cb := (dump_callback DecodeInt decodePayload).
Local Abbreviation case_of := (callback_case DecodeInt decodePayload).

Lemma scan_payloads_ext (start end_ : Z) (rs : bucket) (r0 : DumpBinlogResp) (limit : Z) :
  exists P,
    Payloads (fst (fst (fst (scan_pure (cb start end_) rs (r0, limit))))) =
    (Payloads r0 ++ P)%list.
Proof.
  destruct (scan_dump_post DecodeInt decodePayload start end_ rs r0 limit)
    as (es & _ & _ & _ & H & _).
  eauto.
Qed.

(** With a smaller limit the loop appends the first payloads of what it
    appends with a larger one. *)
Lemma scan_limit_prefix (start end_ : Z) (rs : bucket) :
  forall r1 r2 l1 l2,
    0 <= l1 <= l2 -> l2 < 2 ^ 31 ->
    exists P1 P2,
      Payloads (fst (fst (fst (scan_pure (cb start end_) rs (r1, l1))))) =
        (Payloads r1 ++ P1)%list /\
      Payloads (fst (fst (fst (scan_pure (cb start end_) rs (r2, l2))))) =
        (Payloads r2 ++ P2)%list /\
      P1 = firstn (Z.to_nat l1) P2.
Proof.
  induction rs as [|[k v] rs IH]; intros r1 r2 l1 l2 Hl Hhi.
  - exists [], []; cbn [scan_pure fst Payloads]; rewrite !app_nil_r, firstn_nil; auto.
  - destruct (Z.eq_dec l1 0) as [->|Hl1].
    { destruct (scan_payloads_ext start end_ ((k, v) :: rs) r2 l2) as [P2 HP2].
      exists [], P2; rewrite scan_limit_reached by lia.
      cbn [fst Payloads Z.to_nat firstn]; rewrite app_nil_r; auto. }
    pose proof (dump_callback_case DecodeInt decodePayload start end_ k v r1 l1) as Hc.
    rewrite !scan_pure_cons.
    destruct Hc
      as [Hz|e Hp Hk|rest Hp Hk|rest cts Hp Hk Hne Hge|rest cts e Hp Hk Hne Hlt Hv
          |rest cts payload age Hp Hk Hne Hlt Hv]; [lia| | | | |].
    + rewrite (callback_bad_key _ _ _ _ _ _ _ _ e) by (auto; lia).
      exists [], []; cbn [fst Payloads]; rewrite !app_nil_r, firstn_nil; auto.
    + rewrite (callback_skip _ _ _ _ _ _ _ _ rest) by (auto; lia).
      cbn [fst]; apply IH; lia.
    + rewrite (callback_unsafe _ _ _ _ _ _ _ _ rest cts) by (auto; lia).
      exists [], []; cbn [fst Payloads]; rewrite !app_nil_r, firstn_nil; auto.
    + rewrite (callback_bad_payload _ _ _ _ _ _ _ _ rest cts e) by (auto; lia).
      exists [], []; cbn [fst Payloads]; rewrite !app_nil_r, firstn_nil; auto.
    + rewrite (callback_append _ _ _ _ _ _ _ _ rest cts payload age) by (auto; lia).
      cbn [fst]; rewrite !int32_wrap_small by lia.
      destruct (IH (mkResp (Payloads r1 ++ [payload]) cts (Errmsg r1))
                   (mkResp (Payloads r2 ++ [payload]) cts (Errmsg r2))
                   (l1 - 1) (l2 - 1) ltac:(lia) ltac:(lia))
        as (P1 & P2 & H1 & H2 & H3).
      exists (payload :: P1), (payload :: P2).
      rewrite H1, H2; cbn [Payloads]; rewrite <- !app_assoc; cbn [app].
      repeat split.
      replace (Z.to_nat l1) with (S (Z.to_nat (l1 - 1))) by lia.
      cbn [firstn]; now rewrite H3.
Qed.

(** X3: a query with a smaller limit returns the first payloads of what
    the same query returns with a larger limit, whatever the bucket holds
    and whether or not a decoder fails. *)
Theorem DumpBinlog_limit_prefix (begin l1 l2 : Z) (w : World) :
  0 <= l1 <= l2 -> l2 < 2 ^ 31 ->
  Payloads (fst (fst (dump (mkReq begin l1) w))) =
  firstn (Z.to_nat l1) (Payloads (fst (fst (dump (mkReq begin l2) w)))).
Proof.
  intros Hl Hhi.
  destruct (DumpBinlog_fields EncodeInt DecodeInt decodePayload (mkReq begin l1) w)
    as (-> & _ & _).
  destruct (DumpBinlog_fields EncodeInt DecodeInt decodePayload (mkReq begin l2) w)
    as (-> & _ & _).
  rewrite !dump_scan_eq; cbn [BeginCommitTS Limit].
  destruct (find_bucket _ _) as [b|]; cbn [fst Payloads]; [|now rewrite firstn_nil].
  destruct (scan_limit_prefix begin (lower (window (srv w)))
              (seek b (EncodeInt [] begin)) (mkResp [] 0 "") (mkResp [] 0 "")
              l1 l2 Hl Hhi) as (P1 & P2 & H1 & H2 & H3).
  rewrite H1, H2; exact H3.
Qed.

(** With a lower safe end the loop appends the first payloads of what it
    appends with a higher one. *)
Lemma scan_window_prefix (start e1 e2 : Z) (rs : bucket) :
  e1 <= e2 ->
  forall r1 r2 l,
    exists P1 rest,
      Payloads (fst (fst (fst (scan_pure (cb start e1) rs (r1, l))))) =
        (Payloads r1 ++ P1)%list /\
      Payloads (fst (fst (fst (scan_pure (cb start e2) rs (r2, l))))) =
        (Payloads r2 ++ P1 ++ rest)%list.
Proof.
  intros He; induction rs as [|[k v] rs IH]; intros r1 r2 l.
  - exists [], []; cbn [scan_pure fst Payloads app]; rewrite !app_nil_r; auto.
  - pose proof (dump_callback_case DecodeInt decodePayload start e1 k v r1 l) as Hc.
    rewrite !scan_pure_cons.
    destruct Hc
      as [Hz|e Hp Hk|rest Hp Hk|rest cts Hp Hk Hne Hge|rest cts e Hp Hk Hne Hlt Hv
          |rest cts payload age Hp Hk Hne Hlt Hv].
    + rewrite callback_limit by lia.
      exists [], []; cbn [fst Payloads app]; rewrite !app_nil_r; auto.
    + rewrite (callback_bad_key _ _ _ _ _ _ _ _ e) by (auto; lia).
      exists [], []; cbn [fst Payloads app]; rewrite !app_nil_r; auto.
    + rewrite (callback_skip _ _ _ _ _ _ _ _ rest) by (auto; lia).
      cbn [fst]; apply IH.
    + rewrite <- (scan_pure_cons (cb start e2) k v rs (r2, l)).
      destruct (scan_payloads_ext start e2 ((k, v) :: rs) r2 l) as [P2 HP2].
      exists [], P2; cbn [fst Payloads app]; rewrite app_nil_r; auto.
    + rewrite (callback_bad_payload _ _ _ _ _ _ _ _ rest cts e) by (auto; lia).
      exists [], []; cbn [fst Payloads app]; rewrite !app_nil_r; auto.
    + rewrite (callback_append _ _ _ _ _ _ _ _ rest cts payload age) by (auto; lia).
      cbn [fst].
      destruct (IH (mkResp (Payloads r1 ++ [payload]) cts (Errmsg r1))
                   (mkResp (Payloads r2 ++ [payload]) cts (Errmsg r2))
                   (int32_wrap (l - 1)))
        as (P1 & rest' & H1 & H2).
      exists (payload :: P1), rest'.
      rewrite H1, H2; cbn [Payloads]; rewrite <- !app_assoc; cbn [app]; auto.
Qed.

(** X4: when the window's lower bound moves up over the same store, the
    payloads returned before are the first payloads of those returned
    after. *)
Theorem DumpBinlog_window_prefix (req : DumpBinlogReq) (w1 w2 : World) :
  globals w1 = globals w2 ->
  boltdb (srv w1) = boltdb (srv w2) ->
  lower (window (srv w1)) <= lower (window (srv w2)) ->
  exists rest,
    Payloads (fst (fst (dump req w2))) =
    (Payloads (fst (fst (dump req w1))) ++ rest)%list.
Proof.
  intros Hg Hs Hlo.
  destruct (DumpBinlog_fields EncodeInt DecodeInt decodePayload req w1) as (-> & _ & _).
  destruct (DumpBinlog_fields EncodeInt DecodeInt decodePayload req w2) as (-> & _ & _).
  rewrite !dump_scan_eq, Hg, Hs.
  destruct (find_bucket _ _) as [b|]; cbn [fst Payloads]; [|exists []; reflexivity].
  destruct (scan_window_prefix (BeginCommitTS req) _ _
              (seek b (EncodeInt [] (BeginCommitTS req))) Hlo
              (mkResp [] 0 "") (mkResp [] 0 "") (Limit req))
    as (P1 & rest & H1 & H2).
  exists rest; rewrite H1, H2; reflexivity.
Qed.

(** X5: a query asked again, after any other query, gets the same
    response: the calls leave nothing behind that a later call reads. *)
Theorem DumpBinlog_repeatable (req req0 : DumpBinlogReq) (w : World) :
  fst (dump req (snd (dump req0 w))) = fst (dump req w).
Proof.
  destruct (DumpBinlog_world EncodeInt DecodeInt decodePayload req0 w) as [Hg Hs].
  now apply DumpBinlog_same.
Qed.

End RangeQueryMore.

(** ** The end timestamp, undecodable keys and the length of the scan *)

Section RangeQueryEdges.

Variable EncodeInt : bytes -> Z -> bytes.
Variable DecodeInt : bytes -> result (bytes * Z).
Variable decodePayload : bytes -> result (bytes * Z).

Local Abbreviation dump := (DumpBinlog EncodeInt DecodeInt decodePayload).
Local Abbreviation scan_of := (dump_scan EncodeInt DecodeInt decodePayload).
Local Abbreviation cb := (dump_callback DecodeInt decodePayload).

(** X6: the [EndCommitTS] of a response with payloads lies strictly
    between the request's [BeginCommitTS] and the window's lower bound, so
    that a reader who continues from it moves forward and stays below the
    safe boundary. *)
Theorem DumpBinlog_end_between (req : DumpBinlogReq) (w : World) :
  codec_ok EncodeInt DecodeInt ->
  in_int64 (BeginCommitTS req) ->
  bucket_sorted (binlog_bucket w) ->
  Payloads (fst (fst (dump req w))) <> [] ->
  BeginCommitTS req < EndCommitTS (fst (fst (dump req w))) < lower (window (srv w)).
Proof.
  intros Hcodec Hstart Hsorted Hne.
  destruct (DumpBinlog_entries EncodeInt DecodeInt decodePayload req w)
    as (es & Hpl & Hend & Hdec & Hsub & Hbnd).
  rewrite Hend.
  assert (Hin : In (last (map a_cts es) 0) (map a_cts es)).
  { apply last_in; intros H0; apply map_eq_nil in H0; subst es.
    apply Hne; rewrite Hpl; reflexivity. }
  apply in_map_iff in Hin; destruct Hin as (a & <- & Ha).
  pose proof (seek_not_below _ (EncodeInt [] (BeginCommitTS req)) Hsorted) as Hge.
  pose proof (subseq_Forall _ _ _ Hsub Hge) as Hge'.
  rewrite Forall_map in Hge'.
  rewrite Forall_forall in *.
  destruct (Hdec a Ha) as [[rest Hk] _].
  pose proof (codec_order _ _ Hcodec _ _ _ _ Hstart (Hge' a Ha) Hk).
  specialize (Hbnd a Ha); lia.
Qed.

(** X7: when the scan reaches a record whose key [DecodeInt] rejects, it
    stops there; the response holds the payloads and the end timestamp
    collected before it and the error's text, and the error, traced, is
    the error result, whatever the value stored under that key. *)
Theorem DumpBinlog_key_failure (req : DumpBinlogReq) (w : World)
  (b pre post : bucket) (k v : bytes) (e : error) (st1 : DumpBinlogResp * Z) :
  find_bucket (buckets (boltdb (srv w))) (BinlogNamespace (globals w)) = Some b ->
  seek b (EncodeInt [] (BeginCommitTS req)) = (pre ++ (k, v) :: post)%list ->
  run_through (cb (BeginCommitTS req) (lower (window (srv w)))) pre
              (mkResp [] 0 "", Limit req) = Some st1 ->
  0 < snd st1 ->
  DecodeInt k = Err e ->
  fst (dump req w) =
    (mkResp (Payloads (fst st1)) (EndCommitTS (fst st1)) (Error e),
     Some (ErrTrace (ErrTrace e))) /\
  log (snd (dump req w)) =
    (log w ++ EvLoadLower
           :: EvScan (BinlogNamespace (globals w)) (EncodeInt [] (BeginCommitTS req))
           :: map EvVisit (map fst pre ++ [k]))%list.
Proof.
  intros Hb Hseek Hrun Hl Hk.
  destruct st1 as [r1 l1]; cbn [fst snd] in *.
  split.
  - rewrite DumpBinlog_eq; cbn zeta.
    rewrite (dump_scan_reach EncodeInt DecodeInt decodePayload req w b pre post k v _
               Hb Hseek Hrun); cbn zeta.
    rewrite scan_pure_cons, (callback_bad_key _ _ _ _ _ _ _ _ e) by auto.
    reflexivity.
  - destruct (DumpBinlog_fields EncodeInt DecodeInt decodePayload req w) as (_ & _ & ->).
    rewrite (dump_scan_reach EncodeInt DecodeInt decodePayload req w b pre post k v _
               Hb Hseek Hrun); cbn zeta.
    rewrite scan_pure_cons, (callback_bad_key _ _ _ _ _ _ _ _ e) by auto.
    reflexivity.
Qed.

End RangeQueryEdges.

Section RangeQueryVisits.

Variable EncodeInt : bytes -> Z -> bytes.
Variable DecodeInt : bytes -> result (bytes * Z).
Variable decodePayload : bytes -> result (bytes * Z).

Local Abbreviation dump := (DumpBinlog EncodeInt DecodeInt decodePayload).
Local Abbreviation cb := (dump_callback DecodeInt decodePayload).

(** The callback is called on at most one record more than it appends
    and skips. *)
Lemma scan_visits_bound (start end_ : Z) (rs : bucket) :
  forall r limit,
    limit < 2 ^ 31 ->
    Z.of_nat (List.length (snd (scan_pure (cb start end_) rs (r, limit)))) <=
    Z.max 0 limit + Z.of_nat (List.length (filter (at_start DecodeInt start) rs)) + 1.
Proof.
  induction rs as [|[k v] rs IH]; intros r limit Hhi; [cbn; lia|].
  pose proof (dump_callback_case DecodeInt decodePayload start end_ k v r limit) as Hc.
  rewrite scan_pure_cons.
  destruct Hc
    as [Hz|e Hp Hk|rest Hp Hk|rest cts Hp Hk Hne Hge|rest cts e Hp Hk Hne Hlt Hv
        |rest cts payload age Hp Hk Hne Hlt Hv];
    cbn [snd List.length filter]; try lia.
  - unfold at_start at 1; cbn [fst]; rewrite Hk, Z.eqb_refl; cbn [List.length].
    specialize (IH r limit Hhi); lia.
  - unfold at_start at 1; cbn [fst]; rewrite Hk.
    destruct (Z.eqb_spec cts start); [contradiction|].
    rewrite int32_wrap_small by lia.
    specialize (IH (mkResp (Payloads r ++ [payload]) cts (Errmsg r)) (limit - 1)
                   ltac:(lia)); lia.
Qed.

(** Records in strictly increasing commitTS order hold at most one at the
    start. *)
Lemma cts_increasing_at_start (start : Z) (rs : bucket) :
  cts_increasing DecodeInt rs = true ->
  (List.length (filter (at_start DecodeInt start) rs) <= 1)%nat.
Proof.
  induction rs as [|r rs IH]; intros H; [cbn; lia|].
  cbn [cts_increasing] in H; apply andb_prop in H; destruct H as [Hr Hrs].
  cbn [filter]; destruct (at_start DecodeInt start r) eqn:Er; [|auto].
  replace (filter (at_start DecodeInt start) rs) with (@nil record); [cbn; lia|].
  clear IH Hrs; induction rs as [|r' rs IH]; [reflexivity|].
  cbn [forallb] in Hr; apply andb_prop in Hr; destruct Hr as [Hr' Hr].
  cbn [filter].
  destruct (at_start DecodeInt start r') eqn:Er'; [|auto].
  unfold at_start in Er, Er'; unfold cts_ltb in Hr'.
  destruct (DecodeInt (fst r)) as [[x c]|]; [|discriminate].
  destruct (DecodeInt (fst r')) as [[x' c']|]; [|discriminate].
  apply Z.eqb_eq in Er, Er'; subst; rewrite Z.ltb_irrefl in Hr'; discriminate.
Qed.

(** X8: when the records from the cursor on come in strictly increasing
    commitTS order, the scan hands the callback at most [limit + 2]
    records: the one at [BeginCommitTS], the ones appended and the one it
    stops at. *)
Theorem DumpBinlog_visits_bounded (req : DumpBinlogReq) (w : World) :
  in_int32 (Limit req) ->
  cts_increasing DecodeInt
    (seek (binlog_bucket w) (EncodeInt [] (BeginCommitTS req))) = true ->
  exists ks,
    log (snd (dump req w)) =
      (log w ++ EvLoadLower
             :: EvScan (BinlogNamespace (globals w)) (EncodeInt [] (BeginCommitTS req))
             :: map EvVisit ks)%list /\
    Z.of_nat (List.length ks) <= Z.max 0 (Limit req) + 2.
Proof.
  intros [_ Hhi] Hinc.
  destruct (DumpBinlog_fields EncodeInt DecodeInt decodePayload req w) as (_ & _ & ->).
  rewrite dump_scan_eq; unfold binlog_bucket in Hinc.
  destruct (find_bucket _ _) as [b|]; cbn [snd log].
  - eexists; split; [reflexivity|].
    pose proof (scan_visits_bound (BeginCommitTS req) (lower (window (srv w)))
                  (seek b (EncodeInt [] (BeginCommitTS req)))
                  (mkResp [] 0 "") (Limit req) Hhi) as H1.
    pose proof (cts_increasing_at_start (BeginCommitTS req) _ Hinc) as H2.
    lia.
  - exists []; split; [reflexivity|cbn; lia].
Qed.

End RangeQueryVisits.

(** ** The wait group and the end of [Close] *)

Lemma run_app (ts1 ts2 : list turn) :
  forall sys, run (ts1 ++ ts2) sys = run ts2 (run ts1 sys).
Proof.
  induction ts1 as [|t ts1 IH]; intros sys; cbn [app run]; [reflexivity|].
  destruct (step t sys); apply IH.
Qed.

Lemma exit_goroutine_some (gl : list goroutine) :
  forall i gl',
    exit_goroutine gl i = Some gl' ->
    List.length gl' = List.length gl /\
    (Forall (fun g => running g = false) (firstn i gl) ->
     Forall (fun g => running g = false) (firstn (S i) gl')).
Proof.
  induction gl as [|g gl IH]; intros i gl' H; [discriminate|].
  destruct i as [|i]; cbn [exit_goroutine] in H.
  - destruct (running g); [|discriminate].
    inversion H; subst; cbn [List.length firstn]; split; [reflexivity|].
    intros _; constructor; [reflexivity|constructor].
  - destruct (exit_goroutine gl i) as [gl''|] eqn:E; [|discriminate].
    inversion H; subst; destruct (IH _ _ E) as [Hlen Hst].
    cbn [List.length]; split; [lia|].
    change (firstn (S i) (g :: gl)) with (g :: firstn i gl).
    change (firstn (S (S i)) (g :: gl'')) with (g :: firstn (S i) gl'').
    intros Hall; inversion Hall; subst; constructor; auto.
Qed.

Lemma exit_goroutine_none (gl : list goroutine) :
  forall i,
    exit_goroutine gl i = None ->
    Forall (fun g => running g = false) (firstn i gl) ->
    Forall (fun g => running g = false) (firstn (S i) gl).
Proof.
  induction gl as [|g gl IH]; intros i H Hall; [constructor|].
  destruct i as [|i]; cbn [exit_goroutine] in H.
  - destruct (running g) eqn:Er; [discriminate|].
    cbn [firstn]; constructor; [exact Er|constructor].
  - destruct (exit_goroutine gl i) as [gl''|] eqn:E; [discriminate|].
    change (firstn (S i) (g :: gl)) with (g :: firstn i gl) in Hall.
    change (firstn (S (S i)) (g :: gl)) with (g :: firstn (S i) gl).
    inversion Hall; subst; constructor; auto.
Qed.

Lemma run_length (ts : list turn) :
  forall sys, List.length (goroutines (run ts sys)) = List.length (goroutines sys).
Proof.
  induction ts as [|t ts IH]; intros sys; cbn [run]; [reflexivity|].
  destruct (step t sys) as [sys'|] eqn:E; [|apply IH].
  rewrite IH; destruct t as [i|]; cbn [step] in E.
  - destruct (exit_goroutine (goroutines sys) i) as [gl|] eqn:Ee; [|discriminate].
    inversion E; subst; cbn [goroutines].
    now destruct (exit_goroutine_some _ _ _ Ee).
  - destruct (Close_step _ _); [|discriminate].
    inversion E; subst; reflexivity.
Qed.

(** After the turns of the goroutines [a] to [a + m - 1], these have
    returned, and [Close] stands where it stood. *)
Lemma run_exits (m : nat) :
  forall a sys,
    Forall (fun g => running g = false) (firstn a (goroutines sys)) ->
    Forall (fun g => running g = false)
           (firstn (a + m) (goroutines (run (map TurnExit (seq a m)) sys))) /\
    close_pc (run (map TurnExit (seq a m)) sys) = close_pc sys.
Proof.
  induction m as [|m IH]; intros a sys Hall; cbn [seq map run].
  - rewrite Nat.add_0_r; auto.
  - cbn [step].
    destruct (exit_goroutine (goroutines sys) a) as [gl|] eqn:E.
    + destruct (exit_goroutine_some _ _ _ E) as [_ Hst].
      match goal with
      | |- context [run _ ?sys1] =>
          destruct (IH (S a) sys1 (Hst Hall)) as [H1 H2]
      end.
      rewrite Nat.add_succ_r; split; [exact H1|exact H2].
    + destruct (IH (S a) sys (exit_goroutine_none _ _ E Hall)) as [H1 H2].
      rewrite Nat.add_succ_r; split; [exact H1|exact H2].
Qed.

Lemma live_stopped (gl : list goroutine) :
  Forall (fun g => running g = false) gl -> live gl = 0.
Proof.
  unfold live; induction 1 as [|g gl Hg Hgl IH]; [reflexivity|].
  cbn [filter]; rewrite Hg; exact IH.
Qed.

Lemma live_bounds (gl : list goroutine) : 0 <= live gl <= Z.of_nat (List.length gl).
Proof.
  unfold live; pose proof (filter_length_le running gl); lia.
Qed.

(** With the wait group at zero, four turns bring [Close] to its end. *)
Lemma close_turns_finish (sys : System) :
  (close_pc sys <= 4)%nat ->
  wg (srv (world sys)) = 0 ->
  close_pc (run [TurnClose; TurnClose; TurnClose; TurnClose] sys) = 4%nat /\
  goroutines (run [TurnClose; TurnClose; TurnClose; TurnClose] sys) = goroutines sys.
Proof.
  destruct sys as [[g s l] gl pc]; destruct s as [b win a gsv m c n].
  cbn [close_pc world srv wg]; intros Hpc ->.
  destruct pc as [|[|[|[|[|pc]]]]]; try lia; split; reflexivity.
Qed.

Section Lifecycle.

Variable url_Parse : string -> result string.
Variable net_Listen : string -> option error.
Variable g : Globals.
Variable s : Server.

Hypothesis Hwg : wg s = 0.
Hypothesis Hopen : closed (boltdb s) = false.
Hypothesis Hctx : ctx s = false.

Local Abbreviation started := (snd (Start url_Parse net_Listen (fresh g s))).

Lemma Start_goroutines : goroutines started = launched s.
Proof.
  unfold Start, StartMetrics, StartPublish, StartCollect, spawn, fresh, launched.
  cbn [world goroutines close_pc srv log set_wg wg metrics tcpAddr app].
  destruct (metrics s);
    cbn [world goroutines close_pc srv log set_wg wg metrics tcpAddr app];
    destruct (url_Parse (tcpAddr s)) as [host|e];
    try destruct (net_Listen host); reflexivity.
Qed.

(** X9: in every schedule the wait group's counter is the number of
    background goroutines that have not returned: it is never negative
    (no [Done] without its [Add]) and never above the two or three
    goroutines that [Start] launched. *)
Theorem WaitGroup_balanced (ts : list turn) :
  let sys := run ts started in
  wg (srv (world sys)) = live (goroutines sys) /\
  0 <= wg (srv (world sys)) <= Z.of_nat (List.length (launched s)) /\
  (2 <= List.length (launched s) <= 3)%nat.
Proof.
  cbn zeta.
  pose proof (run_inv ts _ (Start_inv url_Parse net_Listen g s Hwg Hopen Hctx)) as Hinv.
  destruct Hinv as (Hw & _).
  pose proof (live_bounds (goroutines (run ts started))) as Hb.
  rewrite run_length, Start_goroutines in Hb.
  repeat split; try lia.
  - unfold launched; destruct (metrics s); cbn [List.length]; lia.
  - unfold launched; destruct (metrics s); cbn [List.length]; lia.
Qed.

(** X10: [Close] can always come to its end.  From every state that a
    schedule reaches, once each background goroutine has had a turn to
    return, four turns of [Close] close the store: the wait does not block
    for ever, whether [Start] succeeded or returned an error. *)
Theorem Close_completes (ts : list turn) :
  let sys := run ts started in
  let fin := run (drain sys) sys in
  closed (boltdb (srv (world fin))) = true /\
  log (world fin) = Close_events /\
  Forall (fun g => running g = false) (goroutines fin).
Proof.
  cbn zeta; unfold drain; rewrite run_app.
  set (sys := run ts started).
  pose proof (run_inv ts _ (Start_inv url_Parse net_Listen g s Hwg Hopen Hctx)) as Hinv.
  fold sys in Hinv.
  destruct (run_exits (List.length (goroutines sys)) 0 sys ltac:(constructor))
    as [Hst Hpc].
  set (mid := run (map TurnExit (seq 0 (List.length (goroutines sys)))) sys) in *.
  assert (Hmid : Close_inv mid) by (apply run_inv; exact Hinv).
  cbn [Nat.add] in Hst.
  rewrite firstn_all2 in Hst by (unfold mid; rewrite run_length; lia).
  pose proof Hmid as (Hw & _ & Hle & _).
  rewrite (live_stopped _ Hst) in Hw.
  destruct (close_turns_finish mid Hle Hw) as [Hfin Hgl].
  pose proof (run_inv [TurnClose; TurnClose; TurnClose; TurnClose] _ Hmid)
    as (_ & Hlog & _ & Hcl & _).
  rewrite Hfin in Hlog, Hcl.
  repeat split; [exact Hcl|exact Hlog|rewrite Hgl; exact Hst].
Qed.

(** X11: [Start] launches the background goroutines before it looks at
    the listening address.  When it returns an error, the collector and
    the publisher (and the metrics goroutine, if configured) are running
    and counted by the wait group, nothing is cancelled, and the gRPC
    server is as it was; the error's cause is that of [url.Parse] or of
    [net.Listen]. *)
Theorem Start_error_leaves_goroutines (err : error) :
  fst (Start url_Parse net_Listen (fresh g s)) = Some err ->
  goroutines started = launched s /\
  Forall (fun g => running g = true) (goroutines started) /\
  wg (srv (world started)) = Z.of_nat (List.length (launched s)) /\
  ctx (srv (world started)) = false /\
  gs (srv (world started)) = gs s /\
  ((exists e0, url_Parse (tcpAddr s) = Err e0 /\ Cause err = Cause e0) \/
   (exists host e0, url_Parse (tcpAddr s) = Ok host /\
                    net_Listen host = Some e0 /\ Cause err = Cause e0)).
Proof.
  intros H; rewrite Start_goroutines.
  assert (Hrun : Forall (fun g0 => running g0 = true) (launched s))
    by (unfold launched; destruct (metrics s); repeat constructor).
  assert (Hlen : Z.of_nat (List.length (launched s)) =
                 match metrics s with Some _ => 3 | None => 2 end)
    by (unfold launched; destruct (metrics s); reflexivity).
  rewrite Hlen; clear Hlen.
  split; [reflexivity|]; split; [exact Hrun|]; clear Hrun.
  revert H.
  unfold Start, StartMetrics, StartPublish, StartCollect, spawn, fresh.
  cbn [world goroutines close_pc srv log set_wg wg metrics tcpAddr app].
  destruct (metrics s);
    cbn [world goroutines close_pc srv log set_wg wg metrics tcpAddr app gs ctx];
    destruct (url_Parse (tcpAddr s)) as [host|e];
    try destruct (net_Listen host) as [e|] eqn:El;
    cbn [fst snd world srv wg ctx gs set_gs set_wg];
    intros H; inversion H; subst; rewrite ?Hwg;
    (split; [reflexivity|]); (split; [exact Hctx|]); (split; [reflexivity|]).
  all: first [ left; eexists; split; [reflexivity|reflexivity]
             | right; exists host, e; repeat split; assumption ].
Qed.

End Lifecycle.

(** ** Construction: namespaces of different clusters, outcomes *)

Lemma string_app_inj (p a b : string) : (p ++ a)%string = (p ++ b)%string -> a = b.
Proof.
  induction p as [|c p IH]; cbn [String.append]; [auto|].
  intros H; injection H as H; auto.
Qed.

Lemma Z_to_int_printable (n : Z) :
  Z.to_int n <> Decimal.Pos Decimal.Nil /\ Z.to_int n <> Decimal.Neg Decimal.Nil.
Proof.
  destruct n as [|q|q]; cbn [Z.to_int]; split; try discriminate;
    intros H; injection H as H; exact (DecimalPos.Unsigned.to_uint_nonnil q H).
Qed.

(** The decimal rendering tells numbers apart. *)
Lemma Sprintf_d_inj (prefix : string) (n m : Z) :
  Sprintf_d prefix n = Sprintf_d prefix m -> n = m.
Proof.
  unfold Sprintf_d; intros H; apply string_app_inj in H.
  apply (f_equal NilZero.int_of_string) in H.
  destruct (Z_to_int_printable n) as [Hn1 Hn2].
  destruct (Z_to_int_printable m) as [Hm1 Hm2].
  rewrite !NilZero.isi in H by assumption.
  injection H as H.
  apply (f_equal Z.of_int) in H; now rewrite !DecimalZ.of_to in H.
Qed.

Lemma bytes_of_string_inj (a b : string) :
  bytes_of_string a = bytes_of_string b -> a = b.
Proof.
  unfold bytes_of_string; intros H.
  apply (f_equal string_of_list_byte) in H.
  now rewrite !string_of_list_byte_of_string in H.
Qed.

Lemma namespace_inj (prefix : string) (n m : Z) :
  bytes_of_string (Sprintf_d prefix n) = bytes_of_string (Sprintf_d prefix m) -> n = m.
Proof.
  intros H; eapply Sprintf_d_inj, bytes_of_string_inj; exact H.
Qed.

Lemma namespace_kinds (n m : Z) :
  bytes_of_string (Sprintf_d "meta_" n) <> bytes_of_string (Sprintf_d "binlog_" m) /\
  bytes_of_string (Sprintf_d "meta_" n) <> bytes_of_string (Sprintf_d "savepoint_" m) /\
  bytes_of_string (Sprintf_d "binlog_" n) <> bytes_of_string (Sprintf_d "savepoint_" m).
Proof.
  unfold bytes_of_string, Sprintf_d.
  cbn [String.append list_byte_of_string].
  repeat split; intros H; injection H as H _; revert H; vm_compute; discriminate.
Qed.

Section ConstructionMore.

Variable MkdirAll : string -> option error.
Variable Join : string -> string -> string.
Variable NewBoltStore : string -> list bytes -> result Store.
Variable NewDepositWindow : Store -> result DepositWindow.
Variable NewCollector : Config -> Store -> DepositWindow -> option error.

Local Abbreviation new_server :=
  (NewServer MkdirAll Join NewBoltStore NewDepositWindow NewCollector).

(** X12: servers constructed for different cluster ids get namespaces
    that have no byte string in common, whichever of the three kinds. *)
Theorem NewServer_namespaces_disjoint (cfg1 cfg2 : Config) (g1 g2 : Globals) (ns : bytes) :
  ClusterID cfg1 <> ClusterID cfg2 ->
  In ns (namespaces (snd (new_server cfg1 g1))) ->
  ~ In ns (namespaces (snd (new_server cfg2 g2))).
Proof.
  intros Hne; rewrite !NewServer_globals; unfold namespaces.
  cbn [WindowNamespace BinlogNamespace SavePointNamespace In].
  destruct (namespace_kinds (ClusterID cfg1) (ClusterID cfg2)) as (A1 & A2 & A3).
  destruct (namespace_kinds (ClusterID cfg2) (ClusterID cfg1)) as (B1 & B2 & B3).
  intros [<-|[<-|[<-|[]]]] [H|[H|[H|[]]]];
    try (apply namespace_inj in H; congruence);
    try (symmetry in H; contradiction); contradiction.
Qed.

(** X13: [NewServer] returns a server exactly when [MkdirAll],
    [NewBoltStore], [NewDepositWindow] and [NewCollector] all succeed, the
    store being opened with the three namespaces of the cluster id.  The
    server holds that store and window, listens on [ListenAddr], is not
    cancelled, has an empty wait group, and has a metrics client exactly
    when both [MetricsAddr] and [MetricsInterval] are set.  Otherwise the
    error returned has the cause of the first call that failed. *)
Theorem NewServer_outcome (cfg : Config) (g : Globals) :
  let g' := snd (new_server cfg g) in
  match fst (new_server cfg g) with
  | Ok s =>
      MkdirAll (DataDir cfg) = None /\
      NewBoltStore (Join (DataDir cfg) "data.bolt") (namespaces g') = Ok (boltdb s) /\
      NewDepositWindow (boltdb s) = Ok (window s) /\
      NewCollector cfg (boltdb s) (window s) = None /\
      tcpAddr s = ListenAddr cfg /\
      wg s = 0 /\ ctx s = false /\ gs s = GrpcNew /\
      (metrics s = None <->
       MetricsAddr cfg = ""%string \/ MetricsInterval cfg = 0) /\
      (forall m, metrics s = Some m ->
                 addr m = MetricsAddr cfg /\ interval m = MetricsInterval cfg)
  | Err e =>
      (exists e0, MkdirAll (DataDir cfg) = Some e0 /\ e = e0) \/
      (MkdirAll (DataDir cfg) = None /\
       exists e0,
         Cause e = Cause e0 /\
         (NewBoltStore (Join (DataDir cfg) "data.bolt") (namespaces g') = Err e0 \/
          exists st,
            NewBoltStore (Join (DataDir cfg) "data.bolt") (namespaces g') = Ok st /\
            (NewDepositWindow st = Err e0 \/
             exists win, NewDepositWindow st = Ok win /\
                         NewCollector cfg st win = Some e0)))
  end.
Proof.
  cbn zeta; rewrite NewServer_globals; unfold namespaces.
  cbn [WindowNamespace BinlogNamespace SavePointNamespace].
  unfold NewServer; cbn [WindowNamespace BinlogNamespace SavePointNamespace].
  destruct (MkdirAll (DataDir cfg)) as [e0|]; cbn [fst]; [left; eauto|].
  destruct (NewBoltStore _ _) as [st|e0] eqn:Es; cbn [fst];
    [|right; split; [reflexivity|]; exists e0; split; [reflexivity|left; reflexivity]].
  destruct (NewDepositWindow st) as [win|e0] eqn:Ew; cbn [fst];
    [|right; split; [reflexivity|]; exists e0; split; [reflexivity|]; right; eauto].
  destruct (NewCollector cfg st win) as [e0|] eqn:Ec; cbn [fst];
    [right; split; [reflexivity|]; exists e0; split; [reflexivity|]; right;
     exists st; split; [reflexivity|]; right; eauto|].
  cbn [boltdb window tcpAddr wg ctx gs metrics].
  do 8 (split; [first [reflexivity|assumption]|]).
  split; [split|].
  - destruct (String.eqb_spec (MetricsAddr cfg) ""); cbn [negb andb]; auto.
    destruct (Z.eqb_spec (MetricsInterval cfg) 0); cbn [negb]; auto.
    discriminate.
  - destruct (String.eqb_spec (MetricsAddr cfg) ""); cbn [negb andb]; auto.
    destruct (Z.eqb_spec (MetricsInterval cfg) 0); cbn [negb]; auto.
    intros [H|H]; contradiction.
  - intros m Hm; destruct (negb _ && negb _); inversion Hm; subst; split; reflexivity.
Qed.

End ConstructionMore.

(** X14: [DumpBinlog] scans the namespace of the latest [NewServer].
    The namespace variables belong to the package, not to a server: after
    a second [NewServer], a query served by the first server scans the
    binlog namespace of the second configuration's cluster id, which is
    not the first server's when the ids differ. *)
Theorem DumpBinlog_scans_latest_namespace
  (EncodeInt : bytes -> Z -> bytes)
  (DecodeInt decodePayload : bytes -> result (bytes * Z))
  (MkdirAll : string -> option error) (Join : string -> string -> string)
  (NewBoltStore : string -> list bytes -> result Store)
  (NewDepositWindow : Store -> result DepositWindow)
  (NewCollector : Config -> Store -> DepositWindow -> option error)
  (cfg1 cfg2 : Config) (g0 : Globals) (s1 : Server) (l : list Event)
  (req : DumpBinlogReq) :
  let g1 := snd (NewServer MkdirAll Join NewBoltStore NewDepositWindow NewCollector
                           cfg1 g0) in
  let g2 := snd (NewServer MkdirAll Join NewBoltStore NewDepositWindow NewCollector
                           cfg2 g1) in
  let w' := snd (DumpBinlog EncodeInt DecodeInt decodePayload req (mkWorld g2 s1 l)) in
  (exists ks,
      log w' = (l ++ EvLoadLower
                  :: EvScan (bytes_of_string (Sprintf_d "binlog_" (ClusterID cfg2)))
                            (EncodeInt [] (BeginCommitTS req))
                  :: map EvVisit ks)%list) /\
  (ClusterID cfg1 <> ClusterID cfg2 ->
   bytes_of_string (Sprintf_d "binlog_" (ClusterID cfg2)) <> BinlogNamespace g1).
Proof.
  cbn zeta; rewrite !NewServer_globals; cbn [BinlogNamespace].
  split.
  - destruct (DumpBinlog_fields EncodeInt DecodeInt decodePayload req
                (mkWorld
                   (mkGlobals (bytes_of_string (Sprintf_d "meta_" (ClusterID cfg2)))
                              (bytes_of_string (Sprintf_d "binlog_" (ClusterID cfg2)))
                              (bytes_of_string (Sprintf_d "savepoint_" (ClusterID cfg2))))
                   s1 l)) as (_ & _ & ->).
    rewrite dump_scan_eq; cbn [globals srv log BinlogNamespace].
    destruct (find_bucket _ _); cbn [snd log]; eexists; [reflexivity|].
    instantiate (1 := []); reflexivity.
  - intros Hne H; apply namespace_inj in H; congruence.
Qed.

(** ** The diff test suite *)

Module DiffTestFacts.

Import DiffTest.

Section SuiteFacts.

Variable Getenv : string -> string.
Variable Dial : string -> string -> option error.

Lemma env_nonempty (key d : string) : d <> ""%string -> env Getenv key d <> ""%string.
Proof.
  unfold env; intros Hd.
  destruct (String.eqb_spec (Getenv key) ""); cbn [negb]; assumption.
Qed.

(** X15: whatever the environment holds, after [SetUpSuite] the user,
    protocol, address and database name are not empty (an unset or empty
    variable gives way to the default), the DSN is built from exactly
    these and the password, the address probed is the one the DSN names,
    and the suite is available exactly when the probe connected or it was
    available before. *)
Theorem SetUpSuite_fields (s : testDBSuite) :
  let s' := SetUpSuite Getenv Dial s in
  user s' <> ""%string /\ prot s' <> ""%string /\
  addr s' <> ""%string /\ dbname s' <> ""%string /\
  netAddr s' = (prot s' ++ "(" ++ addr s' ++ ")")%string /\
  dsn s' = (user s' ++ ":" ++ pass s' ++ "@" ++ netAddr s' ++ "/" ++ dbname s'
            ++ "?timeout=30s&strict=true")%string /\
  (pass s' = ""%string <-> Getenv "MYSQL_TEST_PASS" = ""%string) /\
  (available s' = true <-> Dial (prot s') (addr s') = None \/ available s = true).
Proof.
  cbn zeta; unfold SetUpSuite; cbn [user prot addr dbname dsn pass available netAddr].
  repeat split; try (apply env_nonempty; discriminate).
  - unfold env; destruct (String.eqb_spec (Getenv "MYSQL_TEST_PASS") "");
      cbn [negb]; auto.
  - unfold env; destruct (String.eqb_spec (Getenv "MYSQL_TEST_PASS") "");
      cbn [negb]; auto; intros; contradiction.
  - destruct (Dial _ _); auto.
  - destruct (Dial _ _); intros [H|H]; auto; discriminate.
Qed.

Variable sql_Open : string -> string -> option error.
Variable Equal : string -> bool * option error.

(** X16: on a fresh suite, [TestDiff] is skipped exactly when the probe of
    [SetUpSuite] could not connect, whatever the databases would answer;
    it passes exactly when the probe connected, [sql.Open] gave no error
    and [Equal] answered true without error. *)
Theorem TestDiff_outcome :
  let s := SetUpSuite Getenv Dial zero_suite in
  (TestDiff sql_Open Equal s = Skipped <-> Dial (prot s) (addr s) <> None) /\
  (TestDiff sql_Open Equal s = Passed <->
   Dial (prot s) (addr s) = None /\
   sql_Open "mysql" (dsn s) = None /\
   Equal (dsn s) = (true, None)).
Proof.
  cbn zeta; unfold TestDiff.
  set (s := SetUpSuite Getenv Dial zero_suite).
  assert (Hav : available s = match Dial (prot s) (addr s) with
                               | None => true
                               | Some _ => false
                               end) by reflexivity.
  rewrite Hav; clear Hav.
  destruct (Dial (prot s) (addr s)) as [e|]; cbn [negb].
  - split; split; try discriminate; auto;
      try (intros [H _]; discriminate); intros _; discriminate.
  - destruct (sql_Open "mysql" (dsn s)) as [e|].
    + split; split; try discriminate; try congruence;
        intros (_ & H & _); discriminate.
    + destruct (Equal (dsn s)) as [[|] [e|]];
        split; split; try discriminate; try congruence; auto;
        intros (_ & _ & H); discriminate.
Qed.

End SuiteFacts.

End DiffTestFacts.

(** ** The further properties on the sample worlds *)

Lemma sample_well_stored : well_stored Codec.decodePayload 13 sample_entries.
Proof.
  unfold well_stored, sample_entries; cbn [map e_cts].
  split; [repeat constructor; lia|].
  split; [repeat constructor; unfold in_int64; cbn [e_cts]; lia|].
  repeat constructor; intros _; exists 0; reflexivity.
Qed.

Lemma DumpBinlog_exact_witness :
  fst (Codec.DumpBinlog (mkReq 10 1) (sample_world 1 six_entries 13)) =
  (mkResp [payload_of 11] 11 "", None).
Proof.
  apply (DumpBinlog_exact Codec.EncodeInt Codec.DecodeInt Codec.decodePayload
           CodecFacts.codec_ok_instance (mkReq 10 1) (sample_world 1 six_entries 13)
           sample_entries).
  - reflexivity.
  - exact sample_well_stored.
  - unfold in_int64; simpl; lia.
  - unfold in_int32; simpl; lia.
Defined.

Lemma DumpBinlog_resume_witness :
  let w := sample_world 1 six_entries 13 in
  let r1 := fst (fst (Codec.DumpBinlog (mkReq 10 1) w)) in
  let w1 := snd (Codec.DumpBinlog (mkReq 10 1) w) in
  let r2 := fst (fst (Codec.DumpBinlog (mkReq (EndCommitTS r1) 5) w1)) in
  EndCommitTS r1 = 11 /\
  (Payloads r1 ++ Payloads r2)%list =
  Payloads (fst (fst (Codec.DumpBinlog (mkReq 10 6) w))).
Proof.
  cbn zeta; split; [reflexivity|].
  apply (DumpBinlog_resume Codec.EncodeInt Codec.DecodeInt Codec.decodePayload
           10 1 5 (sample_world 1 six_entries 13) sample_entries).
  - exact CodecFacts.codec_ok_instance.
  - reflexivity.
  - exact sample_well_stored.
  - unfold in_int64; lia.
  - lia.
  - lia.
  - lia.
  - discriminate.
Defined.

Lemma DumpBinlog_limit_prefix_witness :
  Payloads (fst (fst (Codec.DumpBinlog (mkReq 10 1) bad12_world))) =
  firstn 1 (Payloads (fst (fst (Codec.DumpBinlog (mkReq 10 7) bad12_world)))).
Proof.
  apply (DumpBinlog_limit_prefix Codec.EncodeInt Codec.DecodeInt Codec.decodePayload
           10 1 7 bad12_world); lia.
Defined.

Lemma DumpBinlog_window_prefix_witness :
  exists rest,
    Payloads (fst (fst (Codec.DumpBinlog (mkReq 10 10) (sample_world 1 six_entries 15)))) =
    (Payloads (fst (fst (Codec.DumpBinlog (mkReq 10 10) (sample_world 1 six_entries 12))))
     ++ rest)%list.
Proof.
  apply (DumpBinlog_window_prefix Codec.EncodeInt Codec.DecodeInt Codec.decodePayload
           (mkReq 10 10) (sample_world 1 six_entries 12) (sample_world 1 six_entries 15)).
  - reflexivity.
  - reflexivity.
  - simpl; lia.
Defined.

Lemma DumpBinlog_end_between_witness :
  10 < EndCommitTS (fst (fst (Codec.DumpBinlog (mkReq 10 10)
                                (sample_world 1 six_entries 13)))) < 13.
Proof.
  apply (DumpBinlog_end_between Codec.EncodeInt Codec.DecodeInt Codec.decodePayload
           (mkReq 10 10) (sample_world 1 six_entries 13)).
  - exact CodecFacts.codec_ok_instance.
  - unfold in_int64; simpl; lia.
  - reflexivity.
  - discriminate.
Defined.

Lemma DumpBinlog_key_failure_witness :
  fst (Codec.DumpBinlog (mkReq 10 10) short_key_world) =
    (mkResp [payload_of 11; payload_of 12] 12 (Error insufficient_bytes),
     Some (ErrTrace (ErrTrace insufficient_bytes))) /\
  log (snd (Codec.DumpBinlog (mkReq 10 10) short_key_world)) =
    [EvLoadLower; EvScan (BinlogNamespace (globals short_key_world)) (key_of 10);
     EvVisit (key_of 10); EvVisit (key_of 11); EvVisit (key_of 12); EvVisit [xff]].
Proof.
  apply (DumpBinlog_key_failure Codec.EncodeInt Codec.DecodeInt Codec.decodePayload
           (mkReq 10 10) short_key_world
           (binlog_bucket short_key_world)
           [(key_of 10, Codec.encodePayload (payload_of 10));
            (key_of 11, Codec.encodePayload (payload_of 11));
            (key_of 12, Codec.encodePayload (payload_of 12))]
           [] [xff] [x00] insufficient_bytes
           (mkResp [payload_of 11; payload_of 12] 12 "", 8)).
  - reflexivity.
  - reflexivity.
  - reflexivity.
  - simpl; lia.
  - reflexivity.
Defined.

Lemma DumpBinlog_visits_bounded_witness :
  exists ks,
    log (snd (Codec.DumpBinlog (mkReq 10 1) (sample_world 1 six_entries 13))) =
      (EvLoadLower
         :: EvScan (BinlogNamespace (globals (sample_world 1 six_entries 13))) (key_of 10)
         :: map EvVisit ks)%list /\
    Z.of_nat (List.length ks) <= 3.
Proof.
  apply (DumpBinlog_visits_bounded Codec.EncodeInt Codec.DecodeInt Codec.decodePayload
           (mkReq 10 1) (sample_world 1 six_entries 13)).
  - unfold in_int32; simpl; lia.
  - reflexivity.
Defined.

Lemma WaitGroup_balanced_witness :
  let sys := run sample_schedule
                 (snd (Start (fun a => Ok a) (fun _ => None)
                             (fresh (mkGlobals [] [] []) sample_server))) in
  wg (srv (world sys)) = live (goroutines sys) /\
  0 <= wg (srv (world sys)) <= 2 /\
  (2 <= 2 <= 3)%nat.
Proof.
  exact (WaitGroup_balanced (fun a => Ok a) (fun _ => None) (mkGlobals [] [] [])
           sample_server eq_refl eq_refl eq_refl sample_schedule).
Defined.

Lemma Close_completes_witness :
  let sys := run [TurnClose; TurnExit 1; TurnClose; TurnClose]
                 (snd (Start parse_fails (fun _ => None)
                             (fresh (mkGlobals [] [] []) sample_server))) in
  let fin := run (drain sys) sys in
  closed (boltdb (srv (world sys))) = false /\
  closed (boltdb (srv (world fin))) = true /\
  log (world fin) = Close_events /\
  Forall (fun g => running g = false) (goroutines fin).
Proof.
  cbn zeta; split; [reflexivity|].
  exact (Close_completes parse_fails (fun _ => None) (mkGlobals [] [] [])
           sample_server eq_refl eq_refl eq_refl
           [TurnClose; TurnExit 1; TurnClose; TurnClose]).
Defined.

Lemma Start_error_leaves_goroutines_witness :
  let out := Start parse_fails (fun _ => None)
                   (fresh (mkGlobals [] [] []) sample_server) in
  goroutines (snd out) = [mkGoroutine TCollector true; mkGoroutine TPublisher true] /\
  Forall (fun g => running g = true) (goroutines (snd out)) /\
  wg (srv (world (snd out))) = 2 /\
  ctx (srv (world (snd out))) = false /\
  gs (srv (world (snd out))) = GrpcNew.
Proof.
  cbn zeta.
  destruct (Start_error_leaves_goroutines parse_fails (fun _ => None)
              (mkGlobals [] [] []) sample_server eq_refl eq_refl
              (ErrAnnotate "invalid listening tcp addr (http://127.0.0.1:8249)"
                           (ErrNew "parse: missing protocol scheme"))
              eq_refl) as (H1 & H2 & H3 & H4 & H5 & _).
  repeat split; assumption.
Defined.

Lemma NewServer_namespaces_disjoint_witness :
  ~ In (bytes_of_string "binlog_1")
       (namespaces (snd (sample_NewServer (sample_config 2) (mkGlobals [] [] [])))).
Proof.
  apply (NewServer_namespaces_disjoint (fun _ => None)
           (fun d f => (d ++ "/" ++ f)%string)
           (fun _ nss => Ok (empty_store nss))
           (fun _ => Ok (mkWindow 0 0))
           (fun _ _ _ => None)
           (sample_config 1) (sample_config 2) (mkGlobals [] [] []) (mkGlobals [] [] [])).
  - discriminate.
  - right; left; reflexivity.
Defined.

(** ** From the configuration to the goroutines *)

(** X17: on a server that [NewServer] returned, [Start] launches the
    collector and the publisher, and the metrics goroutine exactly when
    the configuration sets both [MetricsAddr] and [MetricsInterval]; the
    wait group counts them. *)
Theorem NewServer_Start_goroutines
  (MkdirAll : string -> option error) (Join : string -> string -> string)
  (NewBoltStore : string -> list bytes -> result Store)
  (NewDepositWindow : Store -> result DepositWindow)
  (NewCollector : Config -> Store -> DepositWindow -> option error)
  (url_Parse : string -> result string) (net_Listen : string -> option error)
  (cfg : Config) (g : Globals) (s : Server) :
  fst (NewServer MkdirAll Join NewBoltStore NewDepositWindow NewCollector cfg g) = Ok s ->
  let g' := snd (NewServer MkdirAll Join NewBoltStore NewDepositWindow NewCollector cfg g) in
  let sys := snd (Start url_Parse net_Listen (fresh g' s)) in
  (MetricsAddr cfg <> ""%string /\ MetricsInterval cfg <> 0 ->
   goroutines sys = [mkGoroutine TCollector true; mkGoroutine TPublisher true;
                     mkGoroutine TMetrics true]) /\
  (MetricsAddr cfg = ""%string \/ MetricsInterval cfg = 0 ->
   goroutines sys = [mkGoroutine TCollector true; mkGoroutine TPublisher true]) /\
  wg (srv (world sys)) = Z.of_nat (List.length (goroutines sys)).
Proof.
  intros Hs; cbn zeta.
  set (g' := snd (NewServer _ _ _ _ _ cfg g)).
  assert (Hf : wg s = 0 /\
               metrics s =
               if negb (String.eqb (MetricsAddr cfg) "") && negb (MetricsInterval cfg =? 0)
               then Some (mkMetricClient (MetricsAddr cfg) (MetricsInterval cfg))
               else None).
  { revert Hs; unfold NewServer.
    destruct (MkdirAll _); [discriminate|].
    destruct (NewBoltStore _ _) as [st|]; [|discriminate].
    destruct (NewDepositWindow st) as [win|]; [|discriminate].
    destruct (NewCollector cfg st win); [discriminate|].
    cbn [fst]; intros H; inversion H; subst; split; reflexivity. }
  destruct Hf as [Hwg Hm].
  rewrite (Start_goroutines url_Parse net_Listen g' s).
  assert (Hcount : wg (srv (world (snd (Start url_Parse net_Listen (fresh g' s))))) =
                   Z.of_nat (List.length (launched s))).
  { unfold Start, StartMetrics, StartPublish, StartCollect, spawn, fresh, launched.
    cbn [world goroutines close_pc srv log set_wg wg metrics tcpAddr app].
    destruct (metrics s);
      cbn [world goroutines close_pc srv log set_wg wg metrics tcpAddr app];
      destruct (url_Parse (tcpAddr s)) as [host|e];
      try destruct (net_Listen host);
      cbn [snd world srv wg set_gs set_wg List.length]; rewrite Hwg; reflexivity. }
  unfold launched in *; rewrite Hm in *.
  destruct (String.eqb_spec (MetricsAddr cfg) ""); cbn [negb andb] in *.
  - repeat split; [intros [H _]; contradiction|exact Hcount].
  - destruct (Z.eqb_spec (MetricsInterval cfg) 0); cbn [negb] in *.
    + repeat split; [intros [_ H]; contradiction|exact Hcount].
    + repeat split; [intros [H|H]; contradiction|exact Hcount].
Qed.

Lemma NewServer_Start_goroutines_witness :
  let s := match fst (sample_NewServer metrics_config (mkGlobals [] [] [])) with
           | Ok s => s
           | Err _ => sample_server
           end in
  let g' := snd (sample_NewServer metrics_config (mkGlobals [] [] [])) in
  let sys := snd (Start parse_fails (fun _ => None) (fresh g' s)) in
  goroutines sys = [mkGoroutine TCollector true; mkGoroutine TPublisher true;
                    mkGoroutine TMetrics true] /\
  wg (srv (world sys)) = 3.
Proof.
  cbn zeta; unfold sample_NewServer.
  destruct (NewServer_Start_goroutines (fun _ => None)
              (fun d f => (d ++ "/" ++ f)%string)
              (fun _ nss => Ok (empty_store nss))
              (fun _ => Ok (mkWindow 0 0))
              (fun _ _ _ => None)
              parse_fails (fun _ => None)
              metrics_config (mkGlobals [] [] [])
              (mkServer (empty_store [bytes_of_string "meta_1"; bytes_of_string "binlog_1";
                                      bytes_of_string "savepoint_1"])
                        (mkWindow 0 0) "http://127.0.0.1:8249" GrpcNew
                        (Some (mkMetricClient "127.0.0.1:9091" 15)) false 0)
              eq_refl) as (H1 & _ & H3).
  split; [apply H1; split; discriminate|exact H3].
Defined.
